(** * Boids: a shallow embedding of [src/boids.js]

    The program is a flocking simulation over JavaScript numbers.  Numbers are
    modelled as real numbers ([R]): arithmetic is exact, and the values NaN
    and Infinity are not represented.  Every statement below is therefore a
    statement about the exact-arithmetic reading of the code.

    - JavaScript objects have identity: every boid record carries the
      identity of the object it stands for ([ident]), and [boid === target]
      compares identities.
    - [Math.random()] is an oracle: [random n] is the value returned by the
      n-th call, and every function that calls it threads the number of calls
      made so far.
    - A [for (const boid of this.boids)] loop that assigns to fields of
      [boid] mutates the array in place: the loop is modelled with the part
      of the array already visited (and mutated) and the part still to
      visit.
    - Where a bound is decided by the rounding of one operation, the
      operation is also given in IEEE binary64 arithmetic (module [Double]),
      and evaluated there: this is the case of the default speed of
      [addBoid]. *)

From Stdlib Require Import Reals Lra Lia List Arith ZArith.
From Stdlib Require PrimFloat.
Import ListNotations.

Open Scope R_scope.

(** ** JavaScript number operations *)

Module JS.

(** [a < b] and [a <= b], [a >= b] as the booleans the code branches on. *)
Definition ltb (a b : R) : bool := if Rlt_dec a b then true else false.
Definition leb (a b : R) : bool := if Rle_dec a b then true else false.
Definition geb (a b : R) : bool := leb b a.

(** Truncation towards zero, as used by the remainder operator. *)
Definition trunc (r : R) : Z :=
  if Rle_dec 0 r then Int_part r else (- Int_part (- r))%Z.

(** The remainder operator [a % b]: the result has the sign of the dividend
    and a magnitude below that of the divisor. *)
Definition rem (a b : R) : R := a - b * IZR (trunc (a / b)).

(** [Math.atan2(y, x)]. *)
Definition atan2 (y x : R) : R :=
  if Rlt_dec 0 x then atan (y / x)
  else if Rlt_dec x 0 then
    (if Rle_dec 0 y then atan (y / x) + PI else atan (y / x) - PI)
  else if Rlt_dec 0 y then PI / 2
  else if Rlt_dec y 0 then - (PI / 2)
  else 0.

(** [Math.min], [Math.max], [Math.abs]. *)
Definition min : R -> R -> R := Rmin.
Definition max : R -> R -> R := Rmax.
Definition abs : R -> R := Rabs.

End JS.

Infix "%%" := JS.rem (at level 40, left associativity) : R_scope.

(** ** Data model *)

(** A boid object: the six fields of the object literal pushed by [addBoid],
    and the identity of the object. *)
Record Boid : Type := mkBoid {
  ident : nat;
  x : R;
  y : R;
  angle : R;
  speed : R;
  newAngle : R;
  newSpeed : R
}.

(** The argument of [addBoid]: every field may be omitted. *)
Record BoidOptions : Type := mkOptions {
  opt_x : option R;
  opt_y : option R;
  opt_angle : option R;
  opt_speed : option R
}.

Definition no_options : BoidOptions := mkOptions None None None None.

Record World : Type := mkWorld {
  width : R;
  height : R;
  boids : list Boid
}.

(** Field assignments on a boid object. *)
Definition set_x (b : Boid) (v : R) : Boid :=
  mkBoid (ident b) v (y b) (angle b) (speed b) (newAngle b) (newSpeed b).
Definition set_y (b : Boid) (v : R) : Boid :=
  mkBoid (ident b) (x b) v (angle b) (speed b) (newAngle b) (newSpeed b).
Definition set_angle (b : Boid) (v : R) : Boid :=
  mkBoid (ident b) (x b) (y b) v (speed b) (newAngle b) (newSpeed b).
Definition set_speed (b : Boid) (v : R) : Boid :=
  mkBoid (ident b) (x b) (y b) (angle b) v (newAngle b) (newSpeed b).
Definition set_newAngle (b : Boid) (v : R) : Boid :=
  mkBoid (ident b) (x b) (y b) (angle b) (speed b) v (newSpeed b).
Definition set_newSpeed (b : Boid) (v : R) : Boid :=
  mkBoid (ident b) (x b) (y b) (angle b) (speed b) (newAngle b) v.

(** The fields that phase 1 of [update] reads: everything but the staging
    fields. *)
Definition committed (b : Boid) : nat * R * R * R * R :=
  (ident b, x b, y b, angle b, speed b).

(** ** The averaging helpers *)

(** [averageAngle]: the angle of the sum of the unit vectors. *)
Definition averageAngle (bs : list Boid) : R :=
  let '(sx, sy) :=
    fold_left (fun '(sx, sy) boid => (sx + cos (angle boid), sy + sin (angle boid)))
              bs (0, 0) in
  JS.atan2 sy sx.

(** [averagePosition]. *)
Definition averagePosition (bs : list Boid) : R * R :=
  let '(totalX, totalY) :=
    fold_left (fun '(tx, ty) boid => (tx + x boid, ty + y boid)) bs (0, 0) in
  (totalX / INR (length bs), totalY / INR (length bs)).

(** [averageSpeed]. *)
Definition averageSpeed (bs : list Boid) : R :=
  fold_left (fun total boid => total + speed boid) bs 0 / INR (length bs).

(** ** [getNeighbors] *)

(** The callback of the [filter] in [getNeighbors]. *)
Definition isNeighbor (target : Boid) (radius : R) (boid : Boid) : bool :=
  if Nat.eqb (ident boid) (ident target) then false
  else
    let dx := JS.abs (x boid - x target) in
    let dy := JS.abs (y boid - y target) in
    JS.ltb (dx * dx + dy * dy) (radius * radius).

Definition getNeighbors (bs : list Boid) (target : Boid) (radius : R) : list Boid :=
  filter (isNeighbor target radius) bs.

(** ** The in-place [for ... of] loop *)

(** [for_of body visited rest s] runs the loop over the elements of [rest]
    in order.  [body] receives the array as it is when the element is
    reached (the elements before it carry the assignments made to them),
    the element, and the state threaded through the loop; it returns the
    element with its fields assigned, and the new state. *)
Fixpoint for_of {S : Type} (body : list Boid -> Boid -> S -> Boid * S)
    (visited rest : list Boid) (s : S) : list Boid * S :=
  match rest with
  | [] => (visited, s)
  | boid :: rest' =>
      let '(boid', s') := body (visited ++ boid :: rest') boid s in
      for_of body (visited ++ [boid']) rest' s'
  end.

(** ** The separation rule *)

(** [distanceSquared] of the separation loop. *)
Definition distanceSquared (boid neighbor : Boid) : R :=
  let dx := x boid - x neighbor in
  let dy := y boid - y neighbor in
  dx * dx + dy * dy.

(** The divisor of both divisions of the separation loop. *)
Definition separationDivisor (boid neighbor : Boid) : R :=
  distanceSquared boid neighbor / 100 + 1.

(** What one neighbor adds to [xInfluence] and [yInfluence]. *)
Definition separationTerm (boid neighbor : Boid) : R * R :=
  let dx := x boid - x neighbor in
  let dy := y boid - y neighbor in
  (dx / separationDivisor boid neighbor * 0.01,
   dy / separationDivisor boid neighbor * 0.01).

(** The loop over the neighbors, from the influences accumulated so far. *)
Definition separation (boid : Boid) (neighbors : list Boid) (acc : R * R) : R * R :=
  fold_left (fun '(xInfluence, yInfluence) neighbor =>
               let '(tx, ty) := separationTerm boid neighbor in
               (xInfluence + tx, yInfluence + ty))
            neighbors acc.

(** What the separation loop adds in total. *)
Definition separationContribution (boid : Boid) (neighbors : list Boid) : R * R :=
  separation boid neighbors (0, 0).

Section Simulation.

(** [random n] is the result of the n-th call of [Math.random()]. *)
Variable random : nat -> R.

(** ** [addBoid] and the constructor *)

(** The identity of a newly created object: one no element of the array
    has. *)
Definition fresh_ident (bs : list Boid) : nat := S (list_max (map ident bs)).

(** A default value is computed, by a call of [Math.random()], only when the
    field is omitted; the defaults are evaluated in the order [x], [y],
    [angle], [speed].  The defaults are exact products and sums here; the
    program rounds each to a double, as [Double.default_position],
    [Double.default_angle] and [Double.default_speed] do, and no strict
    bound is stated below where the rounding reaches the bound. *)
Definition addBoid (o : BoidOptions) (w : World) (k : nat) : World * nat :=
  let '(vx, k) := match opt_x o with
                  | Some v => (v, k)
                  | None => (random k * width w, S k)
                  end in
  let '(vy, k) := match opt_y o with
                  | Some v => (v, k)
                  | None => (random k * height w, S k)
                  end in
  let '(va, k) := match opt_angle o with
                  | Some v => (v, k)
                  | None => (random k * 2 * PI, S k)
                  end in
  let '(vs, k) := match opt_speed o with
                  | Some v => (v, k)
                  | None => (random k + 0.5, S k)
                  end in
  (mkWorld (width w) (height w)
           (boids w ++ [mkBoid (fresh_ident (boids w)) vx vy va vs 0 0]), k).

(** The loop of the constructor. *)
Fixpoint addBoids (n : nat) (w : World) (k : nat) : World * nat :=
  match n with
  | O => (w, k)
  | S n' => let '(w', k') := addBoid no_options w k in addBoids n' w' k'
  end.

(** [new World({width, height, initialBoidCount})], for an integer count. *)
Definition newWorld (w h : R) (initialBoidCount : Z) (k : nat) : World * nat :=
  let world := mkWorld w h [] in
  if Z.eqb initialBoidCount 0 then (world, k)
  else addBoids (Z.to_nat initialBoidCount) world k.

(** ** [update] *)

(** Phase 1, the influences on one boid: [(xInfluence, yInfluence,
    speedInfluence)] after the noise is added.  The three noise draws are
    the calls [k], [k+1] and [k+2] of [Math.random()]. *)
Definition influences (all : list Boid) (boid : Boid) (k : nat) : R * R * R :=
  let neighbors := getNeighbors all boid 100 in
  let '(xInfluence, yInfluence, speedInfluence) :=
    if Nat.ltb 0 (length neighbors) then
      let aAngle := averageAngle neighbors in
      let xInfluence := 0 + cos aAngle * 0.01 in
      let yInfluence := 0 + sin aAngle * 0.01 in
      let '(ax, ay) := averagePosition neighbors in
      let xInfluence := xInfluence + (ax - x boid) * 0.001 in
      let yInfluence := yInfluence + (ay - y boid) * 0.001 in
      let '(xInfluence, yInfluence) :=
        separation boid neighbors (xInfluence, yInfluence) in
      (xInfluence, yInfluence, (averageSpeed neighbors - speed boid) * 0.1)
    else (0, 0, 0) in
  (xInfluence + (random k * 2 - 1) * 0.01,
   yInfluence + (random (k + 1) * 2 - 1) * 0.01,
   speedInfluence + (random (k + 2) * 2 - 1) * 0.01).

(** Phase 1, the body of the loop: the staging fields are assigned. *)
Definition stage (all : list Boid) (boid : Boid) (k : nat) : Boid * nat :=
  let '(xInfluence, yInfluence, speedInfluence) := influences all boid k in
  let boid := set_newAngle boid
                (JS.atan2 (sin (angle boid) + yInfluence)
                          (cos (angle boid) + xInfluence)) in
  let boid := set_newSpeed boid
                (JS.min (JS.max (speed boid + speedInfluence) 0.5) 2) in
  (boid, (k + 3)%nat).

(** Phase 2, the body of the loop, in a world of width [w] and height [h]. *)
Definition move (w h : R) (boid : Boid) : Boid :=
  let boid := set_angle boid (newAngle boid) in
  let boid := set_speed boid (newSpeed boid) in
  let boid := set_x boid (x boid + cos (angle boid) * speed boid) in
  let boid := set_y boid (y boid + sin (angle boid) * speed boid) in
  let boid := if JS.geb (x boid) w then set_x boid (x boid %% w) else boid in
  let boid := if JS.leb (x boid) 0 then set_x boid (x boid %% w + w) else boid in
  let boid := if JS.geb (y boid) h then set_y boid (y boid %% h) else boid in
  let boid := if JS.leb (y boid) 0 then set_y boid (y boid %% w + h) else boid in
  boid.

Definition phase1 (bs : list Boid) (k : nat) : list Boid * nat :=
  for_of stage [] bs k.

Definition phase2 (w h : R) (bs : list Boid) : list Boid :=
  fst (for_of (fun _ boid (u : unit) => (move w h boid, u)) [] bs tt).

Definition update (w : World) (k : nat) : World * nat :=
  let '(bs, k') := phase1 (boids w) k in
  (mkWorld (width w) (height w) (phase2 (width w) (height w) bs), k').

(** [n] calls of [update]. *)
Fixpoint updates (n : nat) (w : World) (k : nat) : World * nat :=
  match n with
  | O => (w, k)
  | S n' => let '(w', k') := update w k in updates n' w' k'
  end.

End Simulation.

(** ** The specification's reading of the tick

    The definitions of this module follow the words of the specification,
    not the code; the theorems below compare them with the code. *)

Module Spec.

(** The neighbors of [target]: every agent other than [target] itself whose
    squared Euclidean distance to [target] is strictly less than the square
    of the radius. *)
Definition neighbor (target : Boid) (radius : R) (b : Boid) : Prop :=
  ident b <> ident target /\
  (x b - x target) ^ 2 + (y b - y target) ^ 2 < radius ^ 2.

(** The wrap of the x axis:
    [if x >= width: x = x mod width; if x <= 0: x = (x mod width) + width]. *)
Definition wrap_x (width xv : R) : R :=
  let x1 := if Rle_dec width xv then xv %% width else xv in
  if Rle_dec x1 0 then x1 %% width + width else x1.

(** The wrap of the y axis:
    [if y >= height: y = y mod height; if y <= 0: y = (y mod width) + height]. *)
Definition wrap_y (width height yv : R) : R :=
  let y1 := if Rle_dec height yv then yv %% height else yv in
  if Rle_dec y1 0 then y1 %% width + height else y1.

(** The y wrap with the lower correction taken modulo the height: what the
    specification says the code does not do. *)
Definition wrap_y_by_height (height yv : R) : R :=
  let y1 := if Rle_dec height yv then yv %% height else yv in
  if Rle_dec y1 0 then y1 %% height + height else y1.

(** Phase 2 for one agent: commit the staged heading and speed, integrate
    the position, wrap each axis. *)
Definition commit_integrate (width height : R) (b : Boid) : Boid :=
  let a := newAngle b in
  let s := newSpeed b in
  mkBoid (ident b)
         (wrap_x width (x b + cos a * s))
         (wrap_y width height (y b + sin a * s))
         a s (newAngle b) (newSpeed b).

(** Phase 1 against a snapshot: the staged values of the agents [bs], each
    computed from [snapshot], the state before the tick, with the noise
    draws starting at call [k]. *)
Fixpoint staged_from_snapshot (random : nat -> R)
    (snapshot bs : list Boid) (k : nat) : list Boid :=
  match bs with
  | [] => []
  | b :: rest =>
      fst (stage random snapshot b k)
        :: staged_from_snapshot random snapshot rest (k + 3)
  end.

(** The tick of the reference: snapshot the whole state, compute the staged
    values of every agent from the snapshot, and only then commit and
    integrate. *)
Definition update (random : nat -> R) (w : World) (k : nat) : World * nat :=
  let snapshot := boids w in
  let staged := staged_from_snapshot random snapshot snapshot k in
  (mkWorld (width w) (height w)
           (map (commit_integrate (width w) (height w)) staged),
   (k + 3 * length snapshot)%nat).

(** The noise terms of the agent whose draws start at call [k]. *)
Definition noise (random : nat -> R) (k : nat) : R * R * R :=
  ((random k * 2 - 1) * 0.01,
   (random (k + 1)%nat * 2 - 1) * 0.01,
   (random (k + 2)%nat * 2 - 1) * 0.01).

(** [clamp(v, lo, hi)]. *)
Definition clamp (v lo hi : R) : R :=
  if Rlt_dec v lo then lo else if Rlt_dec hi v then hi else v.

End Spec.

(** The staging fields of a boid. *)
Definition staging (b : Boid) : R * R := (newAngle b, newSpeed b).

(** Forgetting the staging fields. *)
Definition unstaged (b : Boid) : Boid :=
  mkBoid (ident b) (x b) (y b) (angle b) (speed b) 0 0.

(** The result of [Math.random()] lies in [[0, 1)]. *)
Definition random_ok (random : nat -> R) : Prop :=
  forall n, 0 <= random n < 1.

(** The bounds that the specification states for an agent of the world
    [w]. *)
Definition in_bounds (w : World) (b : Boid) : Prop :=
  0 <= x b < width w /\ 0 <= y b < height w /\ 0.5 <= speed b <= 2.

(** ** A scenario

    [new World({width: 10, height: 10, initialBoidCount: 1})] followed by
    [update()], when the calls of [Math.random()] return 0.9, 0.5, 0 and
    then 0.5 for ever: the only boid is created at [(9, 5)] with heading 0
    and speed 1, and the three noise terms of the tick are 0. *)
Module Scenario.

Definition draws (n : nat) : R :=
  match n with
  | 0%nat => 0.9
  | 2%nat => 0
  | _ => 0.5
  end.

Definition constant_draws (n : nat) : R := 0.5.

Definition created : World * nat := newWorld draws 10 10 1 0.

Definition ticked : World * nat := update draws (fst created) (snd created).

Definition lonely : Boid := mkBoid 0 1 1 0 1 0 0.

Definition left_boid : Boid := mkBoid 0 0 0 0 1 0 0.
Definition right_boid : Boid := mkBoid 1 3 4 0 1 0 0.

End Scenario.

(** ** Notions used to state further properties *)

(** The number of fields that the options of [addBoid] omit. *)
Definition omitted (o : BoidOptions) : nat :=
  let absent (f : option R) : nat :=
    match f with Some _ => 0%nat | None => 1%nat end in
  (absent (opt_x o) + absent (opt_y o) + absent (opt_angle o)
   + absent (opt_speed o))%nat.

(** The sum of a list of numbers. *)
Definition Rsum (l : list R) : R := fold_right Rplus 0 l.

(** The sum of the unit vectors along the headings of a list of boids. *)
Definition resultant (bs : list Boid) : R * R :=
  (Rsum (map (fun b => cos (angle b)) bs),
   Rsum (map (fun b => sin (angle b)) bs)).

(** The length of a vector. *)
Definition norm (v : R * R) : R := sqrt (fst v * fst v + snd v * snd v).

(** The position of a boid after the integration of phase 2, before the
    wrap. *)
Definition integrated_x (b : Boid) : R := x b + cos (newAngle b) * newSpeed b.
Definition integrated_y (b : Boid) : R := y b + sin (newAngle b) * newSpeed b.

(** The noise of a tick is zero for the boid whose draws start at call
    [k]: the three calls of [Math.random()] return 0.5. *)
Definition zero_noise (random : nat -> R) (k : nat) : Prop :=
  random k = 0.5 /\ random (k + 1)%nat = 0.5 /\ random (k + 2)%nat = 0.5.

Module Scenario2.

(** Three boids in a row, with different speeds. *)
Definition slow : Boid := mkBoid 0 0 0 0 0.6 0 0.
Definition medium : Boid := mkBoid 1 10 0 0 1 0 0.
Definition fast : Boid := mkBoid 2 20 0 0 1.4 0 0.
Definition row : list Boid := [slow; medium; fast].

(** Options that give the position and leave heading and speed out. *)
Definition position_only : BoidOptions := mkOptions (Some 3) (Some 4) None None.

End Scenario2.

(** ** The defaults of [addBoid] in double precision

    The four default expressions of [addBoid] on IEEE binary64 numbers, the
    numbers of the program: each is one or two correctly rounded
    operations on a result of [Math.random()], a double of [[0, 1)]. *)
Module Double.

Import PrimFloat.

(** [Math.PI], the double nearest to pi. *)
Definition PI : float := 0x1.921fb54442d18p+1%float.


(** The largest double below 1, [1 - 2^-53]. *)
Definition largest_draw : float := 0x1.fffffffffffffp-1%float.

(** [Math.random() * this.width] and [Math.random() * this.height]. *)
Definition default_position (r dimension : float) : float :=
  (r * dimension)%float.

(** [Math.random() * 2 * Math.PI]. *)
Definition default_angle (r : float) : float := (r * 2 * PI)%float.

(** [Math.random() + 0.5]. *)
Definition default_speed (r : float) : float := (r + 0.5)%float.

(** The comparisons [a < b] and [a <= b] of doubles. *)
Definition lt (a b : float) : bool := ltb a b.
Definition le (a b : float) : bool := leb a b.

(** The bounds that the specification gives for the default speed, and a
    width. *)
Definition lower_speed : float := 0.5%float.
Definition ten : float := 10%float.
Definition two_pi : float := (2 * PI)%float.

End Double.

(** Case analysis on a comparison of the code whose operands hold no other
    comparison, followed by the evaluation of the field accesses. *)
Ltac case_comparison :=
  match goal with
  | |- context [Rle_dec ?a ?b] =>
      lazymatch a with
      | context [Rle_dec _ _] => fail
      | _ => lazymatch b with
             | context [Rle_dec _ _] => fail
             | _ => destruct (Rle_dec a b)
             end
      end
  end;
  cbn [ident x y angle speed newAngle newSpeed
       set_x set_y set_angle set_speed].

(** * Properties *)

(** ** Facts about the number operations *)

Module JSFacts.

Lemma ltb_true (a b : R) : JS.ltb a b = true <-> a < b.
Proof. unfold JS.ltb. destruct (Rlt_dec a b); split; intros; auto; discriminate. Qed.

Lemma ltb_false (a b : R) : JS.ltb a b = false <-> b <= a.
Proof.
  unfold JS.ltb. destruct (Rlt_dec a b); split; intros; auto; try discriminate; lra.
Qed.

Lemma leb_true (a b : R) : JS.leb a b = true <-> a <= b.
Proof. unfold JS.leb. destruct (Rle_dec a b); split; intros; auto; discriminate. Qed.

Lemma leb_false (a b : R) : JS.leb a b = false <-> b < a.
Proof.
  unfold JS.leb. destruct (Rle_dec a b); split; intros; auto; try discriminate; lra.
Qed.

Lemma geb_true (a b : R) : JS.geb a b = true <-> b <= a.
Proof. apply leb_true. Qed.

Lemma geb_false (a b : R) : JS.geb a b = false <-> a < b.
Proof. apply leb_false. Qed.

Lemma abs_square (a : R) : JS.abs a * JS.abs a = a * a.
Proof.
  unfold JS.abs, Rabs. destruct (Rcase_abs a); lra.
Qed.

Lemma trunc_IZR (k : Z) : JS.trunc (IZR k) = k.
Proof.
  unfold JS.trunc. destruct (Rle_dec 0 (IZR k)).
  - symmetry. apply Int_part_spec. lra.
  - rewrite <- opp_IZR.
    rewrite <- (Int_part_spec (IZR (- k)) (- k)%Z); [lia | lra].
Qed.

(** The quotient is truncated towards zero. *)
Lemma trunc_nonneg (r : R) :
  0 <= r -> IZR (JS.trunc r) <= r < IZR (JS.trunc r) + 1.
Proof.
  intros Hr. unfold JS.trunc. destruct (Rle_dec 0 r); [|lra].
  destruct (base_Int_part r). lra.
Qed.

Lemma trunc_neg (r : R) :
  r < 0 -> r <= IZR (JS.trunc r) < r + 1.
Proof.
  intros Hr. unfold JS.trunc. destruct (Rle_dec 0 r); [lra|].
  rewrite opp_IZR. destruct (base_Int_part (- r)). lra.
Qed.

Lemma rem_eq (a b : R) :
  b <> 0 -> a %% b = b * (a / b - IZR (JS.trunc (a / b))).
Proof. intros Hb. unfold JS.rem. field. exact Hb. Qed.

(** A non-negative dividend leaves a remainder in [[0, b)]. *)
Lemma rem_nonneg (a b : R) : 0 < b -> 0 <= a -> 0 <= a %% b < b.
Proof.
  intros Hb Ha. rewrite rem_eq by lra.
  assert (Hq : 0 <= a / b).
  { unfold Rdiv. apply Rmult_le_pos; [lra|]. left. now apply Rinv_0_lt_compat. }
  destruct (trunc_nonneg _ Hq) as [H1 H2]. split; nra.
Qed.

(** A non-positive dividend leaves a remainder in [(-b, 0]]. *)
Lemma rem_nonpos (a b : R) : 0 < b -> a <= 0 -> - b < a %% b <= 0.
Proof.
  intros Hb Ha. destruct (Req_dec a 0) as [->|Hne].
  - unfold JS.rem. replace (0 / b) with (IZR 0) by (unfold Rdiv; lra).
    rewrite trunc_IZR. lra.
  - rewrite rem_eq by lra.
    assert (Hq : a / b < 0).
    { unfold Rdiv. assert (0 < / b) by now apply Rinv_0_lt_compat. nra. }
    destruct (trunc_neg _ Hq) as [H1 H2]. split; nra.
Qed.

(** An exact multiple of the divisor leaves no remainder. *)
Lemma rem_multiple (k : Z) (b : R) : b <> 0 -> (IZR k * b) %% b = 0.
Proof.
  intros Hb. unfold JS.rem.
  replace (IZR k * b / b) with (IZR k) by (field; exact Hb).
  rewrite trunc_IZR. lra.
Qed.

Lemma atan2_0_1 : JS.atan2 0 1 = 0.
Proof.
  unfold JS.atan2. destruct (Rlt_dec 0 1); [|lra].
  replace (0 / 1) with 0 by lra. apply atan_0.
Qed.

(** The clamp of a speed. *)
Lemma clamp_bounds (v : R) : 0.5 <= JS.min (JS.max v 0.5) 2 <= 2.
Proof.
  unfold JS.min, JS.max, Rmin, Rmax.
  destruct (Rle_dec v 0.5); destruct (Rle_dec _ 2); lra.
Qed.

Lemma clamp_id (v : R) : 0.5 <= v <= 2 -> JS.min (JS.max v 0.5) 2 = v.
Proof.
  intros Hv. unfold JS.min, JS.max, Rmin, Rmax.
  destruct (Rle_dec v 0.5); destruct (Rle_dec _ 2); lra.
Qed.

End JSFacts.

(** ** Facts about the loops *)

Lemma fold_left_through_map {A B C : Type} (f : A -> C -> A) (g : B -> C)
    (l : list B) (a : A) :
  fold_left f (map g l) a = fold_left (fun acc b => f acc (g b)) l a.
Proof.
  revert a. induction l as [|b l IH]; intros a; simpl; [reflexivity|apply IH].
Qed.

(** A loop whose body looks at the visited element only assigns to the
    elements one by one. *)
Lemma for_of_local {S : Type} (body : list Boid -> Boid -> S -> Boid * S)
    (f : Boid -> Boid) :
  (forall all b s, body all b s = (f b, s)) ->
  forall rest visited s,
    for_of body visited rest s = (visited ++ map f rest, s).
Proof.
  intros Hbody. induction rest as [|b rest IH]; intros visited s; simpl.
  - now rewrite app_nil_r.
  - rewrite Hbody, IH, <- app_assoc. reflexivity.
Qed.

Lemma phase2_map (w h : R) (bs : list Boid) :
  phase2 w h bs = map (move w h) bs.
Proof.
  unfold phase2. rewrite (for_of_local _ (move w h)); reflexivity.
Qed.

(** What phase 1 reads of a boid is what [unstaged] keeps. *)
Lemma unstaged_of_committed (l1 l2 : list Boid) :
  map committed l1 = map committed l2 -> map unstaged l1 = map unstaged l2.
Proof.
  intros H.
  pose (f := fun c : nat * R * R * R * R =>
               let '(i, vx, vy, va, vs) := c in mkBoid i vx vy va vs 0 0).
  assert (E : forall l, map unstaged l = map f (map committed l)).
  { intros l. rewrite map_map. apply map_ext. reflexivity. }
  now rewrite !E, H.
Qed.

Lemma unstaged_of_committed1 (b1 b2 : Boid) :
  committed b1 = committed b2 -> unstaged b1 = unstaged b2.
Proof.
  intros H. assert (E : map unstaged [b1] = map unstaged [b2]).
  { apply unstaged_of_committed. simpl. now rewrite H. }
  exact (f_equal (hd b1) E).
Qed.

Lemma getNeighbors_unstaged (all : list Boid) (target : Boid) (radius : R) :
  getNeighbors (map unstaged all) (unstaged target) radius
  = map unstaged (getNeighbors all target radius).
Proof.
  unfold getNeighbors. induction all as [|b all IH]; simpl; [reflexivity|].
  change (isNeighbor (unstaged target) radius (unstaged b))
    with (isNeighbor target radius b).
  destruct (isNeighbor target radius b); simpl; now rewrite IH.
Qed.

Lemma fold_left_pointwise {A B : Type} (f g : A -> B -> A) :
  (forall a b, f a b = g a b) ->
  forall l a, fold_left f l a = fold_left g l a.
Proof.
  intros H. induction l as [|b l IH]; intros a; simpl; [reflexivity|].
  now rewrite H, IH.
Qed.

Lemma averageAngle_unstaged (bs : list Boid) :
  averageAngle (map unstaged bs) = averageAngle bs.
Proof.
  unfold averageAngle. rewrite fold_left_through_map.
  erewrite fold_left_pointwise; [reflexivity|].
  intros [sx sy] b. reflexivity.
Qed.

Lemma averagePosition_unstaged (bs : list Boid) :
  averagePosition (map unstaged bs) = averagePosition bs.
Proof.
  unfold averagePosition. rewrite fold_left_through_map, length_map.
  erewrite fold_left_pointwise; [reflexivity|].
  intros [tx ty] b. reflexivity.
Qed.

Lemma averageSpeed_unstaged (bs : list Boid) :
  averageSpeed (map unstaged bs) = averageSpeed bs.
Proof.
  unfold averageSpeed. now rewrite fold_left_through_map, length_map.
Qed.

Lemma separation_unstaged (boid : Boid) (bs : list Boid) (acc : R * R) :
  separation (unstaged boid) (map unstaged bs) acc = separation boid bs acc.
Proof.
  unfold separation. rewrite fold_left_through_map.
  apply fold_left_pointwise. intros [xi yi] b. reflexivity.
Qed.

(** The influences on a boid do not depend on any staging field. *)
Lemma influences_unstaged (random : nat -> R) (all : list Boid) (boid : Boid)
    (k : nat) :
  influences random (map unstaged all) (unstaged boid) k
  = influences random all boid k.
Proof.
  unfold influences.
  rewrite getNeighbors_unstaged, length_map, averageAngle_unstaged,
    averagePosition_unstaged, averageSpeed_unstaged.
  destruct (averagePosition (getNeighbors all boid 100)) as [ax ay].
  rewrite separation_unstaged.
  reflexivity.
Qed.

Lemma influences_committed (random : nat -> R) (all1 all2 : list Boid)
    (b1 b2 : Boid) (k : nat) :
  map committed all1 = map committed all2 ->
  committed b1 = committed b2 ->
  influences random all1 b1 k = influences random all2 b2 k.
Proof.
  intros Hall Hb.
  rewrite <- (influences_unstaged random all1 b1),
          <- (influences_unstaged random all2 b2).
  now rewrite (unstaged_of_committed _ _ Hall), (unstaged_of_committed1 _ _ Hb).
Qed.

(** The body of phase 1 assigns the two staging fields and nothing else,
    and makes three calls of [Math.random()]. *)
Lemma stage_eq (random : nat -> R) (all : list Boid) (boid : Boid) (k : nat) :
  stage random all boid k =
  (mkBoid (ident boid) (x boid) (y boid) (angle boid) (speed boid)
          (JS.atan2
             (sin (angle boid) + snd (fst (influences random all boid k)))
             (cos (angle boid) + fst (fst (influences random all boid k))))
          (JS.min
             (JS.max (speed boid + snd (influences random all boid k)) 0.5) 2),
   (k + 3)%nat).
Proof.
  unfold stage. destruct (influences random all boid k) as [[xi yi] si].
  reflexivity.
Qed.

Lemma stage_keeps_committed (random : nat -> R) (all : list Boid) (boid : Boid)
    (k : nat) :
  committed (fst (stage random all boid k)) = committed boid.
Proof. rewrite stage_eq. reflexivity. Qed.

Lemma stage_committed (random : nat -> R) (all1 all2 : list Boid) (boid : Boid)
    (k : nat) :
  map committed all1 = map committed all2 ->
  stage random all1 boid k = stage random all2 boid k.
Proof.
  intros H. rewrite !stage_eq.
  now rewrite (influences_committed random all1 all2 boid boid k H eq_refl).
Qed.

(** The loop of phase 1, entered with part of the array visited: as long as
    the array agrees with [snapshot] on the committed fields, the loop
    computes what the reference computes from [snapshot]. *)
Lemma for_of_stage_snapshot (random : nat -> R) (snapshot : list Boid) :
  forall rest visited k,
    map committed (visited ++ rest) = map committed snapshot ->
    for_of (stage random) visited rest k
    = (visited ++ Spec.staged_from_snapshot random snapshot rest k,
       (k + 3 * length rest)%nat).
Proof.
  induction rest as [|b rest IH]; intros visited k Hsnap; simpl.
  - rewrite app_nil_r. f_equal. lia.
  - rewrite (stage_committed random _ snapshot b k Hsnap).
    pose proof (stage_keeps_committed random snapshot b k) as Hb.
    rewrite stage_eq in *. cbn [fst] in Hb.
    rewrite IH.
    + rewrite <- app_assoc. simpl. f_equal. lia.
    + rewrite <- app_assoc. simpl.
      rewrite <- Hsnap, !map_app. simpl. now rewrite Hb.
Qed.

Lemma phase1_snapshot (random : nat -> R) (bs : list Boid) (k : nat) :
  phase1 random bs k
  = (Spec.staged_from_snapshot random bs bs k, (k + 3 * length bs)%nat).
Proof.
  unfold phase1. now rewrite (for_of_stage_snapshot random bs bs [] k eq_refl).
Qed.

Lemma staged_from_snapshot_length (random : nat -> R) (snapshot : list Boid) :
  forall bs k, length (Spec.staged_from_snapshot random snapshot bs k) = length bs.
Proof.
  induction bs as [|b bs IH]; intros k; simpl; [reflexivity|now rewrite IH].
Qed.

Lemma staged_from_snapshot_committed (random : nat -> R) (snapshot : list Boid) :
  forall bs k,
    map committed (Spec.staged_from_snapshot random snapshot bs k)
    = map committed bs.
Proof.
  induction bs as [|b bs IH]; intros k; simpl; [reflexivity|].
  now rewrite stage_keeps_committed, IH.
Qed.

(** The staged values of the [i]-th agent are those of [stage] on the
    snapshot, with the draws [k + 3 i], [k + 3 i + 1] and [k + 3 i + 2]. *)
Lemma staged_from_snapshot_nth (random : nat -> R) (snapshot : list Boid)
    (d : Boid) :
  forall bs k i,
    (i < length bs)%nat ->
    nth i (Spec.staged_from_snapshot random snapshot bs k) d
    = fst (stage random snapshot (nth i bs d) (k + 3 * i)).
Proof.
  induction bs as [|b bs IH]; intros k i Hi; simpl in Hi; [lia|].
  destruct i as [|i]; simpl.
  - f_equal. f_equal. lia.
  - rewrite IH by lia. f_equal. f_equal. lia.
Qed.

(** ** The neighbor query *)

Lemma isNeighbor_spec (target : Boid) (radius : R) (b : Boid) :
  isNeighbor target radius b = true <-> Spec.neighbor target radius b.
Proof.
  unfold isNeighbor, Spec.neighbor.
  destruct (Nat.eqb_spec (ident b) (ident target)) as [E|E].
  - split; [discriminate|]. intros [H _]. contradiction.
  - cbv zeta. rewrite JSFacts.ltb_true, !JSFacts.abs_square.
    split; [intros H; split; [exact E|]|intros [_ H]]; simpl in *; lra.
Qed.

(** C4. [getNeighbors(t, r)] returns exactly the agents [b] of the
    collection that are not the object [t] and whose plain Euclidean
    distance to [t] satisfies [(b.x - t.x)^2 + (b.y - t.y)^2 < r^2]: a
    distinct agent at the coordinates of [t] is returned (when [r] is not
    zero), and an agent at squared distance exactly [r^2] is not. *)
Theorem getNeighbors_exact (bs : list Boid) (t : Boid) (r : R) :
  (forall b, In b (getNeighbors bs t r) <-> In b bs /\ Spec.neighbor t r b) /\
  (forall b, In b bs -> ident b <> ident t -> x b = x t -> y b = y t ->
             r <> 0 -> In b (getNeighbors bs t r)) /\
  (forall b, (x b - x t) ^ 2 + (y b - y t) ^ 2 = r ^ 2 ->
             ~ In b (getNeighbors bs t r)).
Proof.
  assert (Hiff : forall b,
             In b (getNeighbors bs t r) <-> In b bs /\ Spec.neighbor t r b).
  { intros b. unfold getNeighbors. rewrite filter_In, isNeighbor_spec.
    reflexivity. }
  split; [exact Hiff|split].
  - intros b Hin Hid Hx Hy Hr. apply Hiff. split; [exact Hin|].
    split; [exact Hid|]. rewrite Hx, Hy.
    assert (0 < r ^ 2) by (simpl; nra). simpl in *. lra.
  - intros b Hd Hin. apply Hiff in Hin. destruct Hin as [_ [_ Hlt]]. lra.
Qed.

(** ** The separation rule *)

Lemma distanceSquared_nonneg (boid neighbor : Boid) :
  0 <= distanceSquared boid neighbor.
Proof.
  unfold distanceSquared. cbv zeta.
  pose proof (Rle_0_sqr (x boid - x neighbor)) as Hx.
  pose proof (Rle_0_sqr (y boid - y neighbor)) as Hy.
  unfold Rsqr in Hx, Hy. lra.
Qed.

(** C7. The divisor [distanceSquared / 100 + 1] of the separation rule is
    at least 1 for every pair of agents, so it is never zero; for two
    agents at the same coordinates [distanceSquared] is 0 and the divisor
    is 1. *)
Theorem separation_divisor_ge_1 :
  (forall boid neighbor, 1 <= separationDivisor boid neighbor) /\
  (forall boid neighbor, separationDivisor boid neighbor <> 0) /\
  (forall i j vx vy a1 s1 na1 ns1 a2 s2 na2 ns2,
     let boid := mkBoid i vx vy a1 s1 na1 ns1 in
     let neighbor := mkBoid j vx vy a2 s2 na2 ns2 in
     distanceSquared boid neighbor = 0 /\ separationDivisor boid neighbor = 1).
Proof.
  assert (H : forall boid neighbor, 1 <= separationDivisor boid neighbor).
  { intros boid neighbor. unfold separationDivisor.
    pose proof (distanceSquared_nonneg boid neighbor). lra. }
  split; [exact H|split].
  - intros boid neighbor. specialize (H boid neighbor). lra.
  - intros. unfold separationDivisor, distanceSquared. simpl. split; lra.
Qed.

Lemma distanceSquared_sym (a b : Boid) :
  distanceSquared a b = distanceSquared b a.
Proof. unfold distanceSquared. cbv zeta. ring. Qed.

Lemma separationTerm_opp (a b : Boid) :
  fst (separationTerm a b) = - fst (separationTerm b a) /\
  snd (separationTerm a b) = - snd (separationTerm b a).
Proof.
  unfold separationTerm, separationDivisor. cbv zeta. simpl.
  rewrite (distanceSquared_sym b a).
  pose proof (distanceSquared_nonneg a b).
  split; field; lra.
Qed.

Lemma separation_single (boid neighbor : Boid) (acc : R * R) :
  separation boid [neighbor] acc
  = (fst acc + fst (separationTerm boid neighbor),
     snd acc + snd (separationTerm boid neighbor)).
Proof.
  unfold separation. destruct acc as [ax ay]. simpl.
  destruct (separationTerm boid neighbor). reflexivity.
Qed.

(** C8. When [a] and [b] are each other's only neighbors, what the
    separation loop adds to the influences of [a] and what it adds to the
    influences of [b] are opposite, on both axes, and so equal in
    magnitude. *)
Theorem separation_symmetry (bs : list Boid) (a b : Boid) (acc_a acc_b : R * R) :
  getNeighbors bs a 100 = [b] ->
  getNeighbors bs b 100 = [a] ->
  let after_a := separation a (getNeighbors bs a 100) acc_a in
  let after_b := separation b (getNeighbors bs b 100) acc_b in
  fst after_a - fst acc_a = - (fst after_b - fst acc_b) /\
  snd after_a - snd acc_a = - (snd after_b - snd acc_b) /\
  Rabs (fst after_a - fst acc_a) = Rabs (fst after_b - fst acc_b) /\
  Rabs (snd after_a - snd acc_a) = Rabs (snd after_b - snd acc_b).
Proof.
  intros Ha Hb. cbv zeta. rewrite Ha, Hb, !separation_single. cbn [fst snd].
  destruct (separationTerm_opp a b) as [Hx Hy].
  assert (Ex : fst acc_a + fst (separationTerm a b) - fst acc_a
               = - (fst acc_b + fst (separationTerm b a) - fst acc_b)) by lra.
  assert (Ey : snd acc_a + snd (separationTerm a b) - snd acc_a
               = - (snd acc_b + snd (separationTerm b a) - snd acc_b)) by lra.
  repeat split; try assumption.
  - rewrite Ex. apply Rabs_Ropp.
  - rewrite Ey. apply Rabs_Ropp.
Qed.

(** Two boids at distance 5 are each other's only neighbors. *)
Lemma pair_neighbors :
  getNeighbors [Scenario.left_boid; Scenario.right_boid] Scenario.left_boid 100
  = [Scenario.right_boid] /\
  getNeighbors [Scenario.left_boid; Scenario.right_boid] Scenario.right_boid 100
  = [Scenario.left_boid].
Proof.
  assert (H1 : isNeighbor Scenario.left_boid 100 Scenario.right_boid = true).
  { apply isNeighbor_spec. split; simpl; [lia|lra]. }
  assert (H2 : isNeighbor Scenario.right_boid 100 Scenario.left_boid = true).
  { apply isNeighbor_spec. split; simpl; [lia|lra]. }
  unfold getNeighbors. cbn [filter]. rewrite H1, H2. split; reflexivity.
Qed.

(** An instance of the symmetry: the boids at [(0, 0)] and [(3, 4)]. *)
Lemma separation_symmetry_witness :
  let bs := [Scenario.left_boid; Scenario.right_boid] in
  let after_a :=
    separation Scenario.left_boid (getNeighbors bs Scenario.left_boid 100) (0, 0) in
  let after_b :=
    separation Scenario.right_boid (getNeighbors bs Scenario.right_boid 100) (0, 0) in
  fst after_a - 0 = - (fst after_b - 0) /\
  snd after_a - 0 = - (snd after_b - 0) /\
  Rabs (fst after_a - 0) = Rabs (fst after_b - 0) /\
  Rabs (snd after_a - 0) = Rabs (snd after_b - 0).
Proof.
  exact (separation_symmetry
           [Scenario.left_boid; Scenario.right_boid]
           Scenario.left_boid Scenario.right_boid (0, 0) (0, 0)
           (proj1 pair_neighbors) (proj2 pair_neighbors)).
Defined.

(** An instance of the neighbor query: a second object at the coordinates
    of the target is a neighbor. *)
Lemma getNeighbors_exact_witness :
  In (mkBoid 1 0 0 0 1 0 0)
     (getNeighbors [Scenario.left_boid; mkBoid 1 0 0 0 1 0 0]
                   Scenario.left_boid 100).
Proof.
  apply (proj1 (proj2 (getNeighbors_exact
                         [Scenario.left_boid; mkBoid 1 0 0 0 1 0 0]
                         Scenario.left_boid 100))).
  - simpl. auto.
  - simpl. lia.
  - reflexivity.
  - reflexivity.
  - lra.
Defined.

(** ** The frame of [update] *)

Lemma move_ident (w h : R) (b : Boid) : ident (move w h b) = ident b.
Proof.
  unfold move. cbv zeta.
  repeat match goal with
         | |- context [if ?c then _ else _] => destruct c
         end; reflexivity.
Qed.

Lemma update_eq (random : nat -> R) (w : World) (k : nat) :
  update random w k
  = (mkWorld (width w) (height w)
       (map (move (width w) (height w))
            (Spec.staged_from_snapshot random (boids w) (boids w) k)),
     (k + 3 * length (boids w))%nat).
Proof.
  unfold update. rewrite phase1_snapshot, phase2_map. reflexivity.
Qed.

Lemma idents_of_committed (bs : list Boid) :
  map ident bs = map (fun c : nat * R * R * R * R => fst (fst (fst (fst c))))
                     (map committed bs).
Proof. rewrite map_map. apply map_ext. reflexivity. Qed.

(** C9. [update()] keeps the width and the height, and keeps the agents:
    the collection holds the same objects in the same order, none added
    and none removed; on a world without agents it changes nothing (and
    makes no call of [Math.random()]). *)
Theorem update_frame (random : nat -> R) (w : World) (k : nat) :
  width (fst (update random w k)) = width w /\
  height (fst (update random w k)) = height w /\
  map ident (boids (fst (update random w k))) = map ident (boids w) /\
  length (boids (fst (update random w k))) = length (boids w) /\
  (forall wd ht, update random (mkWorld wd ht []) k = (mkWorld wd ht [], k)).
Proof.
  rewrite update_eq. cbn [fst width height boids].
  assert (Hid : map ident
                  (map (move (width w) (height w))
                     (Spec.staged_from_snapshot random (boids w) (boids w) k))
                = map ident (boids w)).
  { rewrite map_map.
    rewrite (map_ext _ ident) by (intros; apply move_ident).
    rewrite idents_of_committed, staged_from_snapshot_committed.
    symmetry. apply idents_of_committed. }
  repeat split; try reflexivity.
  - exact Hid.
  - rewrite length_map. apply staged_from_snapshot_length.
Qed.

(** ** Phase 2: commit, integrate, wrap *)

(** The body of the second loop is the commit-integrate-wrap step of the
    specification. *)
Lemma move_spec (w h : R) (b : Boid) :
  move w h b = Spec.commit_integrate w h b.
Proof.
  destruct b as [i bx by_ ba bs na ns].
  unfold move, Spec.commit_integrate, Spec.wrap_x, Spec.wrap_y, JS.geb, JS.leb.
  cbn [ident x y angle speed newAngle newSpeed
       set_x set_y set_angle set_speed].
  repeat case_comparison; reflexivity.
Qed.

Lemma trunc_between_neg (r : R) (z : Z) :
  r < 0 -> r <= IZR z < r + 1 -> JS.trunc r = z.
Proof.
  intros Hr Hz. unfold JS.trunc. destruct (Rle_dec 0 r); [lra|].
  rewrite <- (Int_part_spec (- r) (- z)%Z); [lia|].
  rewrite opp_IZR. lra.
Qed.

(** The two readings of the y wrap differ: at width 4 and height 10, the
    position -5 is sent to 9 by the code and to 5 by the wrap that takes
    the remainder by the height. *)
Lemma wrap_y_uses_width :
  Spec.wrap_y 4 10 (-5) = 9 /\ Spec.wrap_y_by_height 10 (-5) = 5.
Proof.
  unfold Spec.wrap_y, Spec.wrap_y_by_height.
  destruct (Rle_dec 10 (-5)); [lra|].
  destruct (Rle_dec (-5) 0); [|lra].
  unfold JS.rem. split.
  - rewrite (trunc_between_neg (-5 / 4) (-1)); lra.
  - rewrite (trunc_between_neg (-5 / 10) 0); lra.
Qed.

(** C2. Phase 2 of [update()] commits the staged angle and speed, adds
    [cos(angle) * speed] to [x] and [sin(angle) * speed] to [y], and wraps
    each axis by the pseudocode of the specification, the lower correction
    of [y] taking the remainder by the width; that reading differs from the
    one taking the remainder by the height. *)
Theorem phase2_wrap_exact :
  (forall w h bs, phase2 w h bs = map (Spec.commit_integrate w h) bs) /\
  (forall random w k,
     boids (fst (update random w k))
     = map (Spec.commit_integrate (width w) (height w))
           (fst (phase1 random (boids w) k))) /\
  (forall i ba bs,
     y (move 4 10 (mkBoid i 0 (-5) ba bs 0 0)) = Spec.wrap_y 4 10 (-5) /\
     Spec.wrap_y 4 10 (-5) <> Spec.wrap_y_by_height 10 (-5)).
Proof.
  assert (H : forall w h bs, phase2 w h bs = map (Spec.commit_integrate w h) bs).
  { intros w h bs. rewrite phase2_map. apply map_ext. apply move_spec. }
  split; [exact H|split].
  - intros random w k. unfold update.
    destruct (phase1 random (boids w) k) as [staged k'].
    cbn [fst boids]. apply H.
  - intros i ba bs. split.
    + rewrite move_spec. unfold Spec.commit_integrate.
      cbn [ident x y angle speed newAngle newSpeed].
      f_equal. rewrite sin_0. lra.
    + destruct wrap_y_uses_width as [-> ->]. lra.
Qed.

(** The wrap of the x axis sends every position into [(0, width]]. *)
Lemma wrap_x_range (w xv : R) : 0 < w -> 0 < Spec.wrap_x w xv <= w.
Proof.
  intros Hw. unfold Spec.wrap_x.
  destruct (Rle_dec w xv) as [Hge|Hlt].
  - pose proof (JSFacts.rem_nonneg xv w Hw ltac:(lra)) as Hr.
    destruct (Rle_dec (xv %% w) 0) as [Hz|Hp]; [|lra].
    assert (E : xv %% w = 0) by lra. rewrite E.
    pose proof (JSFacts.rem_nonpos 0 w Hw ltac:(lra)). lra.
  - destruct (Rle_dec xv 0) as [Hz|Hp]; [|lra].
    pose proof (JSFacts.rem_nonpos xv w Hw Hz). lra.
Qed.

(** The wrap of the x axis sends every multiple of the width to the
    width. *)
Lemma wrap_x_multiple (w : R) (k : Z) : 0 < w -> Spec.wrap_x w (IZR k * w) = w.
Proof.
  intros Hw. unfold Spec.wrap_x.
  assert (Hrem : (IZR k * w) %% w = 0) by (apply JSFacts.rem_multiple; lra).
  assert (Hrem0 : 0 %% w = 0).
  { replace 0 with (IZR 0 * w) at 1 by lra. apply JSFacts.rem_multiple. lra. }
  destruct (Rle_dec w (IZR k * w)) as [Hge|Hlt].
  - rewrite Hrem. destruct (Rle_dec 0 0); [|lra]. rewrite Hrem0. lra.
  - destruct (Rle_dec (IZR k * w) 0) as [Hz|Hp].
    + rewrite Hrem. lra.
    + exfalso. destruct (Z_lt_le_dec k 1) as [Hk|Hk].
      * assert (IZR k <= 0) by (apply IZR_le; lia). nra.
      * assert (1 <= IZR k) by (apply IZR_le; lia). nra.
Qed.

Lemma move_x (w h : R) (b : Boid) :
  x (move w h b) = Spec.wrap_x w (x b + cos (newAngle b) * newSpeed b).
Proof. rewrite move_spec. reflexivity. Qed.

(** C10. For a positive width, the x wrap of [update()] leaves [x] in
    [(0, width]], not in [[0, width)]: a position that is an exact multiple
    of the width after the integration (0 included, and the multiples that
    the first branch reduces to 0) is set to the width itself, and no
    wrapped [x] is 0. *)
Theorem wrap_x_half_open_above (w h : R) (b : Boid) :
  0 < w ->
  let xi := x b + cos (newAngle b) * newSpeed b in
  0 < x (move w h b) <= w /\
  (forall k : Z, xi = IZR k * w -> x (move w h b) = w) /\
  (xi = 0 -> x (move w h b) = w) /\
  x (move w h b) <> 0.
Proof.
  intros Hw xi. rewrite move_x. fold xi.
  pose proof (wrap_x_range w xi Hw) as Hr.
  repeat split; try lra.
  - intros k ->. now apply wrap_x_multiple.
  - intros ->. replace 0 with (IZR 0 * w) by lra. now apply wrap_x_multiple.
Qed.

(** An instance: width 10, an agent at [x = 9] with staged heading 0 and
    staged speed 1 reaches 10 and stays there. *)
Lemma wrap_x_half_open_above_witness :
  x (move 10 10 (mkBoid 0 9 5 0 1 0 1)) = 10.
Proof.
  refine (proj1 (proj2 (wrap_x_half_open_above 10 10 (mkBoid 0 9 5 0 1 0 1) _)) 1%Z _).
  - lra.
  - cbn [x newAngle newSpeed]. rewrite cos_0. lra.
Defined.

(** ** Phase 1: the two-phase tick *)

(** The influences on a boid use three calls of [Math.random()] and no
    other. *)
Lemma influences_noise (random random' : nat -> R) (all : list Boid)
    (boid : Boid) (k k' : nat) :
  (forall j, (j < 3)%nat -> random (k + j)%nat = random' (k' + j)%nat) ->
  influences random all boid k = influences random' all boid k'.
Proof.
  intros H. unfold influences.
  pose proof (H 0%nat ltac:(lia)) as H0. rewrite !Nat.add_0_r in H0.
  rewrite H0, (H 1%nat), (H 2%nat) by lia. reflexivity.
Qed.

Lemma staging_stage (random : nat -> R) (all : list Boid) (boid : Boid)
    (k : nat) :
  staging (fst (stage random all boid k))
  = (JS.atan2 (sin (angle boid) + snd (fst (influences random all boid k)))
              (cos (angle boid) + fst (fst (influences random all boid k))),
     JS.min (JS.max (speed boid + snd (influences random all boid k)) 0.5) 2).
Proof. rewrite stage_eq. reflexivity. Qed.

Lemma committed_nth (bs bs' : list Boid) (i : nat) (d : Boid) :
  map committed bs = map committed bs' ->
  committed (nth i bs d) = committed (nth i bs' d).
Proof.
  intros H. rewrite <- !(map_nth committed). now rewrite H.
Qed.

Lemma update_snapshot (random : nat -> R) (w : World) (k : nat) :
  update random w k = Spec.update random w k.
Proof.
  rewrite update_eq. unfold Spec.update. cbv zeta.
  f_equal. f_equal. apply map_ext. apply move_spec.
Qed.

(** C3. [update()] has snapshot semantics.  The first loop, which runs on
    the array it is assigning to, stages for every agent what the reference
    stages from a snapshot of the state before the tick, and the tick as a
    whole is the tick of the reference.  The first loop leaves the
    identity, position, heading and speed of every agent as they were:
    positions change in the second loop only.  The values staged for the
    [i]-th agent are a function of the committed fields of all the agents
    and of the three noise draws of that agent. *)
Theorem two_phase_snapshot :
  (forall random w k, update random w k = Spec.update random w k) /\
  (forall random bs k,
     phase1 random bs k
     = (Spec.staged_from_snapshot random bs bs k, (k + 3 * length bs)%nat)) /\
  (forall random bs k,
     map committed (fst (phase1 random bs k)) = map committed bs) /\
  (forall random random' bs bs' k k' i d,
     map committed bs = map committed bs' ->
     (forall j, (j < 3)%nat ->
                random (k + 3 * i + j)%nat = random' (k' + 3 * i + j)%nat) ->
     (i < length bs)%nat ->
     staging (nth i (fst (phase1 random bs k)) d)
     = staging (nth i (fst (phase1 random' bs' k')) d)).
Proof.
  split; [exact update_snapshot|].
  split; [exact phase1_snapshot|].
  split.
  - intros random bs k. rewrite phase1_snapshot. cbn [fst].
    apply staged_from_snapshot_committed.
  - intros random random' bs bs' k k' i d Hc Hr Hi.
    assert (Hi' : (i < length bs')%nat).
    { rewrite <- (length_map committed bs'), <- Hc, length_map. exact Hi. }
    rewrite !phase1_snapshot. cbn [fst].
    rewrite !staged_from_snapshot_nth by assumption.
    rewrite !staging_stage.
    pose proof (committed_nth bs bs' i d Hc) as Hb.
    assert (Ha : angle (nth i bs d) = angle (nth i bs' d))
      by (unfold committed in Hb; congruence).
    assert (Hs : speed (nth i bs d) = speed (nth i bs' d))
      by (unfold committed in Hb; congruence).
    rewrite (influences_committed random bs bs' _ _ _ Hc Hb).
    rewrite (influences_noise random random' bs' _ _ _ Hr).
    now rewrite Ha, Hs.
Qed.

(** An instance: two states that differ in the staging fields only stage
    the same values. *)
Lemma two_phase_snapshot_witness :
  staging (nth 0 (fst (phase1 Scenario.constant_draws
                         [Scenario.lonely] 0)) Scenario.lonely)
  = staging (nth 0 (fst (phase1 Scenario.constant_draws
                           [mkBoid 0 1 1 0 1 7 7] 0)) Scenario.lonely).
Proof.
  apply (proj2 (proj2 (proj2 two_phase_snapshot))).
  - reflexivity.
  - reflexivity.
  - simpl. lia.
Defined.

(** ** Phase 1: an agent without neighbors *)

Lemma clamp_min_max (v lo hi : R) :
  lo <= hi -> JS.min (JS.max v lo) hi = Spec.clamp v lo hi.
Proof.
  intros H. unfold JS.min, JS.max, Rmin, Rmax, Spec.clamp.
  destruct (Rle_dec v lo); destruct (Rlt_dec v lo);
    destruct (Rlt_dec hi v);
    match goal with |- context [Rle_dec ?a ?b] => destruct (Rle_dec a b) end;
    lra.
Qed.

Lemma noise_bounded (random : nat -> R) (k : nat) :
  random_ok random ->
  Rabs (fst (fst (Spec.noise random k))) <= 0.01 /\
  Rabs (snd (fst (Spec.noise random k))) <= 0.01 /\
  Rabs (snd (Spec.noise random k)) <= 0.01.
Proof.
  intros H. unfold Spec.noise. cbn [fst snd].
  pose proof (H k). pose proof (H (k + 1)%nat). pose proof (H (k + 2)%nat).
  repeat split; apply Rabs_le; lra.
Qed.

(** Without neighbors the influences are the noise terms. *)
Lemma influences_lonely (random : nat -> R) (all : list Boid) (boid : Boid)
    (k : nat) :
  getNeighbors all boid 100 = [] ->
  influences random all boid k = Spec.noise random k.
Proof.
  intros H. unfold influences, Spec.noise. rewrite H. cbn [length Nat.ltb Nat.leb].
  now rewrite !Rplus_0_l.
Qed.

Lemma getNeighbors_alone (b : Boid) (r : R) : getNeighbors [b] b r = [].
Proof.
  unfold getNeighbors, isNeighbor. cbn [filter]. now rewrite Nat.eqb_refl.
Qed.

(** C5. For an agent without neighbors within 100, phase 1 stages
    [newAngle = atan2(sin(angle) + ey, cos(angle) + ex)] and
    [newSpeed = clamp(speed + es, 0.5, 2)], where [ex], [ey] and [es] are
    the three noise terms of the agent, each of magnitude at most 0.01, and
    leaves its other fields alone; the only agent of a world has no
    neighbors. *)
Theorem lonely_boid_staged (random : nat -> R) (bs : list Boid) (k i : nat)
    (d : Boid) :
  random_ok random ->
  (i < length bs)%nat ->
  getNeighbors bs (nth i bs d) 100 = [] ->
  let boid := nth i bs d in
  let ex := fst (fst (Spec.noise random (k + 3 * i))) in
  let ey := snd (fst (Spec.noise random (k + 3 * i))) in
  let es := snd (Spec.noise random (k + 3 * i)) in
  let staged := nth i (fst (phase1 random bs k)) d in
  newAngle staged = JS.atan2 (sin (angle boid) + ey) (cos (angle boid) + ex) /\
  newSpeed staged = Spec.clamp (speed boid + es) 0.5 2 /\
  committed staged = committed boid /\
  (Rabs ex <= 0.01 /\ Rabs ey <= 0.01 /\ Rabs es <= 0.01) /\
  (forall b r, getNeighbors [b] b r = []).
Proof.
  intros Hr Hi Hn boid ex ey es staged.
  assert (E : staged = fst (stage random bs boid (k + 3 * i))).
  { unfold staged. rewrite phase1_snapshot. cbn [fst].
    now apply staged_from_snapshot_nth. }
  rewrite E, stage_eq. cbn [fst newAngle newSpeed].
  rewrite (influences_lonely random bs boid _ Hn).
  fold ex ey es.
  repeat split.
  - apply clamp_min_max. lra.
  - apply (noise_bounded random (k + 3 * i) Hr).
  - apply (noise_bounded random (k + 3 * i) Hr).
  - apply (noise_bounded random (k + 3 * i) Hr).
  - exact getNeighbors_alone.
Qed.

Lemma constant_draws_ok : random_ok Scenario.constant_draws.
Proof. intros n. unfold Scenario.constant_draws. lra. Qed.

(** An instance: the only agent of a world. *)
Lemma lonely_boid_staged_witness :
  newSpeed (nth 0 (fst (phase1 Scenario.constant_draws [Scenario.lonely] 0))
                Scenario.lonely)
  = Spec.clamp
      (speed Scenario.lonely + snd (Spec.noise Scenario.constant_draws 0))
      0.5 2.
Proof.
  refine (proj1 (proj2 (lonely_boid_staged Scenario.constant_draws
                          [Scenario.lonely] 0 0 Scenario.lonely _ _ _))).
  - exact constant_draws_ok.
  - simpl. lia.
  - reflexivity.
Defined.

(** ** [addBoid] *)

(** The identity given to a new boid is the identity of no boid of the
    array. *)
Lemma fresh_ident_fresh (bs : list Boid) :
  ~ In (fresh_ident bs) (map ident bs).
Proof.
  unfold fresh_ident. intros Hin.
  pose proof (proj1 (list_max_le (map ident bs) (list_max (map ident bs)))
                (Nat.le_refl _)) as Hall.
  rewrite Forall_forall in Hall. specialize (Hall _ Hin). lia.
Qed.


(** The other defaults at the extreme draws, in double precision. *)
Lemma defaults_at_extreme_draws :
  Double.default_speed PrimFloat.zero = Double.lower_speed /\
  Double.lt (Double.default_position Double.largest_draw Double.ten)
            Double.ten = true /\
  Double.lt (Double.default_angle Double.largest_draw) Double.two_pi = true.
Proof. vm_compute. repeat split. Qed.



(** ** The bounds after [update] *)

Lemma staged_speed_bounds (random : nat -> R) (snapshot : list Boid) :
  forall bs k,
    Forall (fun b => 0.5 <= newSpeed b <= 2)
           (Spec.staged_from_snapshot random snapshot bs k).
Proof.
  induction bs as [|b bs IH]; intros k; simpl; constructor.
  - rewrite stage_eq. cbn [fst newSpeed]. apply JSFacts.clamp_bounds.
  - apply IH.
Qed.

(** What every call of [update()] establishes in a world of positive
    width: the speed is in [[0.5, 2]] and [x] is in [(0, width]]. *)
Lemma update_establishes (random : nat -> R) (w : World) (k : nat) :
  0 < width w ->
  Forall (fun b => 0 < x b <= width w /\ 0.5 <= speed b <= 2)
         (boids (fst (update random w k))).
Proof.
  intros Hw. rewrite update_eq. cbn [fst boids].
  rewrite Forall_map.
  eapply Forall_impl; [|apply staged_speed_bounds].
  intros b Hb. split.
  - rewrite move_x. now apply wrap_x_range.
  - rewrite move_spec. exact Hb.
Qed.

Lemma updates_width (random : nat -> R) :
  forall n w k, width (fst (updates random n w k)) = width w.
Proof.
  induction n as [|n IH]; intros w k; simpl; [reflexivity|].
  rewrite update_eq. rewrite IH. reflexivity.
Qed.

(** The same after any positive number of calls. *)
Lemma updates_establish (random : nat -> R) :
  forall n w k,
    0 < width w ->
    Forall (fun b => 0 < x b <= width w /\ 0.5 <= speed b <= 2)
           (boids (fst (updates random (S n) w k))).
Proof.
  induction n as [|n IH]; intros w k Hw.
  - simpl. destruct (update random w k) as [w' k'] eqn:E.
    change w' with (fst (w', k')). rewrite <- E. now apply update_establishes.
  - change (updates random (S (S n)) w k)
      with (let '(w', k') := update random w k in updates random (S n) w' k').
    rewrite update_eq.
    set (w' := mkWorld _ _ _).
    change (width w) with (width w'). apply IH. exact Hw.
Qed.

(** The lower correction of [y] takes the remainder by the width: in a
    world of width 100 and height 1, a boid at [y = 0.5] that moves down
    at speed 2 ends below 0. *)
Lemma wrap_y_escapes :
  y (move 100 1 (mkBoid 0 50 0.5 0 2 (- (PI / 2)) 2)) = - 0.5.
Proof.
  rewrite move_spec. unfold Spec.commit_integrate.
  cbn [ident x y angle speed newAngle newSpeed].
  rewrite sin_neg, sin_PI2. unfold Spec.wrap_y.
  destruct (Rle_dec 1 (0.5 + - (1) * 2)); [lra|].
  destruct (Rle_dec (0.5 + - (1) * 2) 0); [|lra].
  unfold JS.rem.
  rewrite (trunc_between_neg ((0.5 + - (1) * 2) / 100) 0); lra.
Qed.

Lemma created_eq :
  Scenario.created = (mkWorld 10 10 [mkBoid 1 9 5 0 1 0 0], 4%nat).
Proof.
  unfold Scenario.created, newWorld.
  change (Z.eqb 1 0) with false. change (Z.to_nat 1) with 1%nat.
  cbn [addBoids addBoid no_options opt_x opt_y opt_angle opt_speed
       width height boids app].
  unfold Scenario.draws, fresh_ident. cbn [map list_max fold_right].
  replace (0.9 * 10) with 9 by lra.
  replace (0.5 * 10) with 5 by lra.
  replace (0 * 2 * PI) with 0 by lra.
  replace (0.5 + 0.5) with 1 by lra.
  reflexivity.
Qed.

Lemma wrap_y_inside (w h yv : R) : 0 < yv < h -> Spec.wrap_y w h yv = yv.
Proof.
  intros H. unfold Spec.wrap_y.
  destruct (Rle_dec h yv); [lra|]. destruct (Rle_dec yv 0); [lra|]. reflexivity.
Qed.

Lemma ticked_eq :
  Scenario.ticked = (mkWorld 10 10 [mkBoid 1 10 5 0 1 0 1], 7%nat).
Proof.
  unfold Scenario.ticked. rewrite created_eq. cbn [fst snd].
  rewrite update_eq.
  cbn [width height boids length Spec.staged_from_snapshot map].
  rewrite stage_eq.
  rewrite (influences_lonely Scenario.draws _ _ _ (getNeighbors_alone _ 100)).
  unfold Spec.noise, Scenario.draws.
  cbn [fst snd ident x y angle speed Nat.add].
  replace ((0.5 * 2 - 1) * 0.01) with 0 by lra.
  rewrite sin_0, cos_0, !Rplus_0_r, JSFacts.atan2_0_1.
  rewrite (JSFacts.clamp_id 1) by lra.
  rewrite move_spec. unfold Spec.commit_integrate.
  cbn [ident x y angle speed newAngle newSpeed].
  rewrite sin_0, cos_0.
  replace (9 + 1 * 1) with (IZR 1 * 10) by lra.
  rewrite wrap_x_multiple by lra.
  rewrite wrap_y_inside by lra.
  replace (5 + 0 * 1) with 5 by lra.
  reflexivity.
Qed.

(** C1, at the scenario.  The world built by the constructor with width
    10, height 10 and one boid satisfies the bounds; after one call of
    [update()] its boid is at [x = 10], the width, so the bound
    [x < width] does not hold. *)
Theorem update_reaches_width :
  0 < width (fst Scenario.created) /\
  0 < height (fst Scenario.created) /\
  Forall (in_bounds (fst Scenario.created)) (boids (fst Scenario.created)) /\
  width (fst Scenario.ticked) = 10 /\
  boids (fst Scenario.ticked) = [mkBoid 1 10 5 0 1 0 1] /\
  ~ Forall (in_bounds (fst Scenario.ticked)) (boids (fst Scenario.ticked)).
Proof.
  rewrite created_eq, ticked_eq. cbn [fst width height boids].
  repeat split; try lra.
  - constructor; [|constructor]. unfold in_bounds. simpl. lra.
  - intros H. inversion H as [|b l Hb _]. subst.
    unfold in_bounds in Hb. simpl in Hb. lra.
Qed.

(** * Further properties *)

(** ** The constructor and [addBoid] *)

Lemma NoDup_snoc {A : Type} (l : list A) (a : A) :
  NoDup l -> ~ In a l -> NoDup (l ++ [a]).
Proof.
  induction l as [|h l IH]; intros Hl Ha; simpl.
  - constructor; [intros []|constructor].
  - inversion Hl as [|? ? Hh Hl']; subst. constructor.
    + rewrite in_app_iff. simpl. intros [H|[H|[]]]; [contradiction|].
      apply Ha. left. symmetry. exact H.
    + apply IH; [exact Hl'|]. intros H. apply Ha. right. exact H.
Qed.

(** What [addBoid] does to the world, whatever the options. *)
Lemma addBoid_shape (random : nat -> R) (o : BoidOptions) (w : World) (k : nat) :
  exists vx vy va vs,
    fst (addBoid random o w k)
    = mkWorld (width w) (height w)
        (boids w ++ [mkBoid (fresh_ident (boids w)) vx vy va vs 0 0]).
Proof.
  destruct o as [[vx|] [vy|] [va|] [vs|]]; unfold addBoid;
    cbn [opt_x opt_y opt_angle opt_speed fst]; do 4 eexists; reflexivity.
Qed.

Lemma addBoid_NoDup (random : nat -> R) (o : BoidOptions) (w : World) (k : nat) :
  NoDup (map ident (boids w)) ->
  NoDup (map ident (boids (fst (addBoid random o w k)))).
Proof.
  intros H. destruct (addBoid_shape random o w k) as (vx & vy & va & vs & ->).
  cbn [boids]. rewrite map_app. cbn [map ident].
  apply NoDup_snoc; [exact H|apply fresh_ident_fresh].
Qed.

(** X3. [addBoid] makes one call of [Math.random()] for each omitted
    field and no other; it keeps the identities of the collection
    distinct; and its result depends on the random source through those
    calls only, so that with all four fields given it does not depend on
    it at all. *)
Theorem addBoid_calls (random : nat -> R) (o : BoidOptions) (w : World)
    (k : nat) :
  snd (addBoid random o w k) = (k + omitted o)%nat /\
  (NoDup (map ident (boids w)) ->
   NoDup (map ident (boids (fst (addBoid random o w k))))) /\
  (forall random',
     (forall j, (j < omitted o)%nat -> random (k + j)%nat = random' (k + j)%nat) ->
     addBoid random o w k = addBoid random' o w k).
Proof.
  split; [|split].
  - destruct o as [[vx|] [vy|] [va|] [vs|]]; unfold addBoid, omitted;
      cbn [opt_x opt_y opt_angle opt_speed snd]; lia.
  - apply addBoid_NoDup.
  - intros random' H.
    assert (H0 : (0 < omitted o)%nat -> random k = random' k).
    { intros Hlt. specialize (H 0%nat Hlt). now rewrite Nat.add_0_r in H. }
    assert (H1 : (1 < omitted o)%nat -> random (S k) = random' (S k)).
    { intros Hlt. specialize (H 1%nat Hlt). now rewrite Nat.add_1_r in H. }
    assert (H2 : (2 < omitted o)%nat -> random (S (S k)) = random' (S (S k))).
    { intros Hlt. specialize (H 2%nat Hlt).
      now replace (k + 2)%nat with (S (S k)) in H by lia. }
    assert (H3 : (3 < omitted o)%nat ->
                 random (S (S (S k))) = random' (S (S (S k)))).
    { intros Hlt. specialize (H 3%nat Hlt).
      now replace (k + 3)%nat with (S (S (S k))) in H by lia. }
    clear H.
    destruct o as [[vx|] [vy|] [va|] [vs|]]; unfold addBoid, omitted in *;
      cbn [opt_x opt_y opt_angle opt_speed] in *;
      rewrite ?H0, ?H1, ?H2, ?H3 by lia; reflexivity.
Qed.

(** An instance: with the position given, two calls are made, and two
    random sources that agree on them give the same boid. *)
Lemma addBoid_calls_witness :
  addBoid Scenario.constant_draws Scenario2.position_only (mkWorld 10 10 []) 0
  = addBoid (fun n => match n with 0%nat | 1%nat => 0.5 | _ => 0.25 end)
            Scenario2.position_only (mkWorld 10 10 []) 0.
Proof.
  apply (proj2 (proj2 (addBoid_calls Scenario.constant_draws
                         Scenario2.position_only (mkWorld 10 10 []) 0))).
  intros j Hj. unfold omitted in Hj. simpl in Hj.
  destruct j as [|[|j]]; [reflexivity|reflexivity|lia].
Defined.

Lemma addBoid_no_options (random : nat -> R) (w : World) (k : nat) :
  addBoid random no_options w k
  = (mkWorld (width w) (height w)
       (boids w ++ [mkBoid (fresh_ident (boids w))
                           (random k * width w)
                           (random (S k) * height w)
                           (random (S (S k)) * 2 * PI)
                           (random (S (S (S k))) + 0.5) 0 0]),
     S (S (S (S k)))).
Proof. reflexivity. Qed.

(** The boids that the loop of the constructor appends. *)
Lemma addBoids_appends (random : nat -> R) (P : R -> R -> Boid -> Prop) :
  (forall w h i k,
      P w h (mkBoid i (random k * w) (random (S k) * h)
                    (random (S (S k)) * 2 * PI)
                    (random (S (S (S k))) + 0.5) 0 0)) ->
  forall n w k,
  exists added,
    fst (addBoids random n w k)
    = mkWorld (width w) (height w) (boids w ++ added) /\
    length added = n /\
    snd (addBoids random n w k) = (k + 4 * n)%nat /\
    Forall (P (width w) (height w)) added.
Proof.
  intros HP. induction n as [|n IH]; intros w k.
  - exists []. cbn [addBoids fst snd]. rewrite app_nil_r.
    repeat split; [destruct w; reflexivity|lia|constructor].
  - cbn [addBoids]. rewrite addBoid_no_options.
    match goal with |- context [addBoids random n ?w' ?k'] =>
      destruct (IH w' k') as (added & E1 & E2 & E3 & E4) end.
    cbn [width height boids] in E1, E4.
    eexists (_ :: added). rewrite E1, E3. repeat split.
    + rewrite <- app_assoc. reflexivity.
    + simpl. now rewrite E2.
    + lia.
    + constructor; [apply HP|exact E4].
Qed.

Lemma addBoids_NoDup (random : nat -> R) :
  forall n w k,
    NoDup (map ident (boids w)) ->
    NoDup (map ident (boids (fst (addBoids random n w k)))).
Proof.
  induction n as [|n IH]; intros w k H; cbn [addBoids]; [exact H|].
  pose proof (addBoid_NoDup random no_options w k H) as H'.
  destruct (addBoid random no_options w k) as [w' k']. now apply IH.
Qed.

Lemma newWorld_appends (random : nat -> R) (P : R -> R -> Boid -> Prop) :
  (forall w h i k,
      P w h (mkBoid i (random k * w) (random (S k) * h)
                    (random (S (S k)) * 2 * PI)
                    (random (S (S (S k))) + 0.5) 0 0)) ->
  forall w h n k,
    fst (newWorld random w h n k)
    = mkWorld w h (boids (fst (newWorld random w h n k))) /\
    length (boids (fst (newWorld random w h n k))) = Z.to_nat n /\
    snd (newWorld random w h n k) = (k + 4 * Z.to_nat n)%nat /\
    Forall (P w h) (boids (fst (newWorld random w h n k))).
Proof.
  intros HP w h n k. unfold newWorld.
  destruct (Z.eqb_spec n 0) as [->|Hn].
  - cbn [fst snd boids length Z.to_nat]. repeat split; [lia|constructor].
  - destruct (addBoids_appends random P HP (Z.to_nat n) (mkWorld w h []) k)
      as (added & E1 & E2 & E3 & E4).
    rewrite E1, E3. cbn [fst boids width height app] in *.
    repeat split; assumption.
Qed.

(** X1. The constructor stores the width and the height and creates
    [initialBoidCount] boids (none when the count is zero or negative),
    each a distinct object with [newAngle = 0] and [newSpeed = 0], with
    four calls of [Math.random()] for each boid. *)
Theorem newWorld_creates (random : nat -> R) (w h : R) (n : Z) (k : nat) :
  width (fst (newWorld random w h n k)) = w /\
  height (fst (newWorld random w h n k)) = h /\
  length (boids (fst (newWorld random w h n k))) = Z.to_nat n /\
  snd (newWorld random w h n k) = (k + 4 * Z.to_nat n)%nat /\
  NoDup (map ident (boids (fst (newWorld random w h n k)))) /\
  Forall (fun b => newAngle b = 0 /\ newSpeed b = 0)
         (boids (fst (newWorld random w h n k))).
Proof.
  destruct (newWorld_appends random
              (fun _ _ b => newAngle b = 0 /\ newSpeed b = 0)
              ltac:(intros; split; reflexivity) w h n k)
    as (E1 & E2 & E3 & E4).
  repeat split; try assumption.
  - now rewrite E1.
  - now rewrite E1.
  - unfold newWorld. destruct (Z.eqb n 0); [constructor|].
    apply addBoids_NoDup. constructor.
Qed.



(** ** More on the neighbor query *)

Lemma neighbor_sym (a b : Boid) (r : R) :
  Spec.neighbor a r b <-> Spec.neighbor b r a.
Proof.
  unfold Spec.neighbor.
  replace ((x a - x b) ^ 2 + (y a - y b) ^ 2)
    with ((x b - x a) ^ 2 + (y b - y a) ^ 2) by ring.
  split; intros [H1 H2]; split; try exact H2; intros E; apply H1;
    symmetry; exact E.
Qed.

(** X4. The neighbor relation is symmetric: for two boids of the
    collection, [b] is returned as a neighbor of [a] exactly when [a] is
    returned as a neighbor of [b], for the same radius. *)
Theorem getNeighbors_symmetric (bs : list Boid) (a b : Boid) (r : R) :
  In a bs -> In b bs ->
  (In b (getNeighbors bs a r) <-> In a (getNeighbors bs b r)).
Proof.
  intros Ha Hb. unfold getNeighbors.
  rewrite !filter_In, !isNeighbor_spec, (neighbor_sym a b r). tauto.
Qed.

Lemma getNeighbors_symmetric_witness :
  In Scenario.right_boid
     (getNeighbors [Scenario.left_boid; Scenario.right_boid]
                   Scenario.left_boid 100)
  <-> In Scenario.left_boid
         (getNeighbors [Scenario.left_boid; Scenario.right_boid]
                       Scenario.right_boid 100).
Proof.
  apply getNeighbors_symmetric; simpl; auto.
Defined.

Lemma filter_rejects_one {A : Type} (f : A -> bool) (l : list A) (a : A) :
  In a l -> f a = false -> (length (filter f l) < length l)%nat.
Proof.
  induction l as [|h l IH]; intros Hin Hf; [contradiction|].
  simpl. pose proof (filter_length_le f l) as Hle.
  destruct Hin as [->|Hin].
  - rewrite Hf. lia.
  - specialize (IH Hin Hf). destruct (f h); simpl; lia.
Qed.

Lemma square_lt_abs (a r : R) : a * a < r * r -> Rabs a < Rabs r.
Proof. intros H. apply Rsqr_lt_abs_0. exact H. Qed.

(** X5. How the neighbor query depends on the radius.  A radius of zero
    gives no neighbor; the sign of the radius does not matter; a radius of
    larger magnitude gives at least the same neighbors; the target, when
    it is in the collection, is left out, so that the result is shorter
    than the collection; and every neighbor is another object, closer to the
    target than the magnitude of the radius on each axis. *)
Theorem getNeighbors_radius (bs : list Boid) (t : Boid) :
  getNeighbors bs t 0 = [] /\
  (forall r, getNeighbors bs t (- r) = getNeighbors bs t r) /\
  (forall r1 r2, Rabs r1 <= Rabs r2 ->
                 incl (getNeighbors bs t r1) (getNeighbors bs t r2)) /\
  (forall r, In t bs -> (length (getNeighbors bs t r) < length bs)%nat) /\
  (forall r b, In b (getNeighbors bs t r) ->
               ident b <> ident t /\
               Rabs (x b - x t) < Rabs r /\ Rabs (y b - y t) < Rabs r).
Proof.
  unfold getNeighbors. split; [|split; [|split; [|split]]].
  - induction bs as [|b bs IH]; [reflexivity|]. simpl.
    destruct (isNeighbor t 0 b) eqn:E; [|exact IH].
    apply isNeighbor_spec in E. destruct E as [_ E].
    pose proof (Rle_0_sqr (x b - x t)). pose proof (Rle_0_sqr (y b - y t)).
    unfold Rsqr in *. simpl in E. lra.
  - intros r. apply filter_ext. intros b. unfold isNeighbor.
    now replace (- r * - r) with (r * r) by ring.
  - intros r1 r2 Hr b. rewrite !filter_In, !isNeighbor_spec.
    intros [Hin [Hid Hd]]. split; [exact Hin|]. split; [exact Hid|].
    apply Rsqr_le_abs_1 in Hr. unfold Rsqr in Hr. simpl in *. lra.
  - intros r Hin. apply (filter_rejects_one _ _ t Hin).
    unfold isNeighbor. now rewrite Nat.eqb_refl.
  - intros r b Hin. apply filter_In in Hin. destruct Hin as [_ Hn].
    apply isNeighbor_spec in Hn. destruct Hn as [Hid Hd].
    pose proof (Rle_0_sqr (x b - x t)) as Hx.
    pose proof (Rle_0_sqr (y b - y t)) as Hy.
    unfold Rsqr in Hx, Hy. simpl in Hd.
    split; [exact Hid|]. split; apply square_lt_abs; lra.
Qed.

Lemma getNeighbors_radius_witness :
  (length (getNeighbors [Scenario.left_boid; Scenario.right_boid]
                        Scenario.left_boid 100) < 2)%nat.
Proof.
  apply (proj1 (proj2 (proj2 (proj2 (getNeighbors_radius
           [Scenario.left_boid; Scenario.right_boid] Scenario.left_boid)))) 100).
  simpl. auto.
Defined.

(** ** Several ticks *)

Lemma update_idents (random : nat -> R) (w : World) (k : nat) :
  map ident (boids (fst (update random w k))) = map ident (boids w).
Proof.
  rewrite update_eq. cbn [fst boids]. rewrite map_map.
  rewrite (map_ext _ ident) by (intros; apply move_ident).
  rewrite idents_of_committed, staged_from_snapshot_committed.
  symmetry. apply idents_of_committed.
Qed.

Lemma update_length (random : nat -> R) (w : World) (k : nat) :
  length (boids (fst (update random w k))) = length (boids w).
Proof.
  rewrite <- (length_map ident), update_idents. apply length_map.
Qed.

(** The last of [S n] ticks is a tick of the world that [n] ticks leave. *)
Lemma updates_last (random : nat -> R) :
  forall n w k,
    updates random (S n) w k
    = update random (fst (updates random n w k)) (snd (updates random n w k)).
Proof.
  induction n as [|n IH]; intros w k.
  - simpl. now destruct (update random w k).
  - change (updates random (S (S n)) w k)
      with (let '(w', k') := update random w k in updates random (S n) w' k').
    destruct (update random w k) as [w' k'] eqn:E.
    rewrite IH. simpl. rewrite E. reflexivity.
Qed.

Lemma update_width (random : nat -> R) (w : World) (k : nat) :
  width (fst (update random w k)) = width w.
Proof. rewrite update_eq. reflexivity. Qed.

Lemma update_height (random : nat -> R) (w : World) (k : nat) :
  height (fst (update random w k)) = height w.
Proof. rewrite update_eq. reflexivity. Qed.

Lemma update_calls (random : nat -> R) (w : World) (k : nat) :
  snd (update random w k) = (k + 3 * length (boids w))%nat.
Proof. rewrite update_eq. reflexivity. Qed.

(** X6. Any number of calls of [update()] keeps the width, the height and
    the collection (the same objects in the same order), and [n] ticks of a
    world of [m] boids make exactly [3 n m] calls of [Math.random()]. *)
Theorem updates_frame (random : nat -> R) (n : nat) (w : World) (k : nat) :
  width (fst (updates random n w k)) = width w /\
  height (fst (updates random n w k)) = height w /\
  map ident (boids (fst (updates random n w k))) = map ident (boids w) /\
  snd (updates random n w k) = (k + 3 * n * length (boids w))%nat.
Proof.
  induction n as [|n IH].
  - simpl. repeat split. lia.
  - destruct IH as (Hw & Hh & Hi & Hk).
    rewrite updates_last.
    rewrite update_width, update_height, update_idents, update_calls.
    repeat split; try assumption.
    rewrite Hk, <- (length_map ident (boids (fst _))), Hi, length_map. lia.
Qed.

(** ** Facts about [Math.atan2] *)

(** The result of [Math.atan2] is an angle in [(-pi, pi]]. *)
Lemma atan2_range (vy vx : R) : - PI < JS.atan2 vy vx <= PI.
Proof.
  pose proof PI_RGT_0 as Hpi. pose proof (atan_bound (vy / vx)) as Hb.
  unfold JS.atan2.
  destruct (Rlt_dec 0 vx) as [Hx|Hx]; [lra|].
  destruct (Rlt_dec vx 0) as [Hx'|Hx'].
  - assert (Hinv : / vx < 0) by now apply Rinv_lt_0_compat.
    destruct (Rle_dec 0 vy) as [Hy|Hy].
    + assert (Hq : vy / vx <= 0) by (unfold Rdiv; nra).
      assert (atan (vy / vx) <= 0).
      { destruct Hq as [Hq|Hq].
        - left. rewrite <- atan_0. now apply atan_increasing.
        - rewrite Hq, atan_0. lra. }
      lra.
    + assert (Hq : 0 < vy / vx) by (unfold Rdiv; nra).
      assert (0 < atan (vy / vx)).
      { rewrite <- atan_0. now apply atan_increasing. }
      lra.
  - destruct (Rlt_dec 0 vy); [lra|]. destruct (Rlt_dec vy 0); lra.
Qed.

Lemma norm_pos (vx vy : R) : vx <> 0 \/ vy <> 0 -> 0 < norm (vx, vy).
Proof.
  intros H. unfold norm. cbn [fst snd]. apply sqrt_lt_R0.
  pose proof (Rle_0_sqr vx) as Hx. pose proof (Rle_0_sqr vy) as Hy.
  unfold Rsqr in *. destruct H; nra.
Qed.

Lemma norm_square (vx vy : R) :
  norm (vx, vy) * norm (vx, vy) = vx * vx + vy * vy.
Proof.
  unfold norm. cbn [fst snd]. apply sqrt_sqrt.
  pose proof (Rle_0_sqr vx) as Hx. pose proof (Rle_0_sqr vy) as Hy.
  unfold Rsqr in *. lra.
Qed.

(** The denominator of the sine and cosine of an arctangent. *)
Lemma sqrt_ratio (vx vy : R) :
  vx <> 0 -> sqrt (1 + (vy / vx)²) = norm (vx, vy) / Rabs vx.
Proof.
  intros Hx.
  assert (Habs : 0 < Rabs vx) by now apply Rabs_pos_lt.
  assert (Hn : 0 < norm (vx, vy)) by (apply norm_pos; now left).
  apply sqrt_lem_1.
  - pose proof (Rle_0_sqr (vy / vx)). lra.
  - unfold Rdiv. apply Rmult_le_pos; [lra|]. left. now apply Rinv_0_lt_compat.
  - assert (E : Rabs vx * Rabs vx = vx * vx).
    { unfold Rabs. destruct (Rcase_abs vx); ring. }
    replace (norm (vx, vy) / Rabs vx * (norm (vx, vy) / Rabs vx))
      with ((norm (vx, vy) * norm (vx, vy)) / (Rabs vx * Rabs vx))
      by (field; lra).
    rewrite norm_square, E. unfold Rsqr. field. exact Hx.
Qed.

(** [Math.atan2(y, x)] is the direction of the vector [(x, y)]: its cosine
    and sine are the coordinates of the unit vector along [(x, y)]. *)
Lemma atan2_direction (vy vx : R) :
  vx <> 0 \/ vy <> 0 ->
  cos (JS.atan2 vy vx) = vx / norm (vx, vy) /\
  sin (JS.atan2 vy vx) = vy / norm (vx, vy).
Proof.
  intros Hv. pose proof (norm_pos vx vy Hv) as Hn.
  unfold JS.atan2.
  destruct (Rlt_dec 0 vx) as [Hx|Hx].
  - rewrite cos_atan, sin_atan, sqrt_ratio by lra.
    rewrite (Rabs_right vx) by lra. split; field; lra.
  - destruct (Rlt_dec vx 0) as [Hx'|Hx'].
    + assert (Hc : cos (atan (vy / vx)) = - vx / norm (vx, vy)).
      { rewrite cos_atan, sqrt_ratio by lra.
        rewrite (Rabs_left vx) by lra. field; lra. }
      assert (Hs : sin (atan (vy / vx)) = - vy / norm (vx, vy)).
      { rewrite sin_atan, sqrt_ratio by lra.
        rewrite (Rabs_left vx) by lra. field; lra. }
      destruct (Rle_dec 0 vy).
      * rewrite neg_cos, neg_sin, Hc, Hs. split; field; lra.
      * rewrite cos_minus, sin_minus, cos_PI, sin_PI, Hc, Hs.
        split; field; lra.
    + assert (vx = 0) by lra. subst vx.
      assert (Hy : vy <> 0) by (destruct Hv; [lra|assumption]).
      destruct (Rlt_dec 0 vy) as [Hp|Hp].
      * assert (E : norm (0, vy) = vy).
        { unfold norm. cbn [fst snd]. apply sqrt_lem_1; nra. }
        rewrite cos_PI2, sin_PI2, E. split; field; lra.
      * destruct (Rlt_dec vy 0) as [Hm|Hm]; [|lra].
        assert (E : norm (0, vy) = - vy).
        { unfold norm. cbn [fst snd]. apply sqrt_lem_1; nra. }
        rewrite cos_neg, sin_neg, cos_PI2, sin_PI2, E. split; field; lra.
Qed.

(** Two angles of [(-pi, pi]] with the same cosine and the same sine are
    equal. *)
Lemma angle_unique (a b : R) :
  - PI < a <= PI -> - PI < b <= PI ->
  cos a = cos b -> sin a = sin b -> a = b.
Proof.
  intros Ha Hb Hc Hs. pose proof PI_RGT_0 as Hpi.
  pose proof (sin2_cos2 b) as Hsq. unfold Rsqr in Hsq.
  assert (Hcd : cos (a - b) = 1) by (rewrite cos_minus, Hc, Hs; lra).
  assert (Hsd : sin (a - b) = 0) by (rewrite sin_minus, Hc, Hs; lra).
  destruct (Rle_dec 0 (a - b)) as [Hd|Hd].
  - destruct (sin_eq_O_2PI_0 (a - b) Hd ltac:(lra) Hsd) as [H|[H|H]];
      [lra| |lra].
    rewrite H, cos_PI in Hcd. lra.
  - assert (Hsd' : sin (b - a) = 0).
    { replace (b - a) with (- (a - b)) by ring. rewrite sin_neg. lra. }
    assert (Hcd' : cos (b - a) = 1).
    { replace (b - a) with (- (a - b)) by ring. now rewrite cos_neg. }
    destruct (sin_eq_O_2PI_0 (b - a) ltac:(lra) ltac:(lra) Hsd') as [H|[H|H]];
      [lra| |lra].
    rewrite H, cos_PI in Hcd'. lra.
Qed.

(** [Math.atan2] gives back an angle of [(-pi, pi]] from its sine and
    cosine. *)
Lemma atan2_sin_cos (a : R) :
  - PI < a <= PI -> JS.atan2 (sin a) (cos a) = a.
Proof.
  intros Ha.
  assert (Hv : cos a <> 0 \/ sin a <> 0).
  { destruct (Req_dec (cos a) 0) as [Hc|Hc]; [|now left].
    right. intros Hs. apply (cos_sin_0 a). now split. }
  destruct (atan2_direction (sin a) (cos a) Hv) as [Hc Hs].
  assert (E : norm (cos a, sin a) = 1).
  { pose proof (sin2_cos2 a) as H. unfold Rsqr in H.
    unfold norm. cbn [fst snd]. apply sqrt_lem_1; lra. }
  rewrite E in Hc, Hs.
  apply angle_unique; [apply atan2_range|exact Ha|lra|lra].
Qed.

(** Scaling a vector by a positive factor keeps its direction. *)
Lemma atan2_scale (c vy vx : R) :
  0 < c -> JS.atan2 (c * vy) (c * vx) = JS.atan2 vy vx.
Proof.
  intros Hc. unfold JS.atan2.
  destruct (Rlt_dec 0 vx) as [Hx|Hx].
  - destruct (Rlt_dec 0 (c * vx)); [|nra].
    f_equal. field. lra.
  - destruct (Rlt_dec 0 (c * vx)); [nra|].
    destruct (Rlt_dec vx 0) as [Hx'|Hx'].
    + destruct (Rlt_dec (c * vx) 0); [|nra].
      replace (c * vy / (c * vx)) with (vy / vx) by (field; lra).
      destruct (Rle_dec 0 vy); destruct (Rle_dec 0 (c * vy)); try nra;
        reflexivity.
    + destruct (Rlt_dec (c * vx) 0); [nra|].
      destruct (Rlt_dec 0 vy); destruct (Rlt_dec 0 (c * vy)); try nra;
        try reflexivity.
      destruct (Rlt_dec vy 0); destruct (Rlt_dec (c * vy) 0); try nra;
        reflexivity.
Qed.

(** ** What every tick commits *)

Lemma staged_ranges (random : nat -> R) (snapshot : list Boid) :
  forall bs k,
    Forall (fun b => 0.5 <= newSpeed b <= 2 /\ - PI < newAngle b <= PI)
           (Spec.staged_from_snapshot random snapshot bs k).
Proof.
  induction bs as [|b bs IH]; intros k; simpl; constructor.
  - rewrite stage_eq. cbn [fst newSpeed newAngle]. split.
    + apply JSFacts.clamp_bounds.
    + apply atan2_range.
  - apply IH.
Qed.

Lemma update_commits (random : nat -> R) (w : World) (k : nat) :
  Forall (fun b => 0.5 <= speed b <= 2 /\ - PI <= angle b <= PI /\
                   angle b = newAngle b /\ speed b = newSpeed b)
         (boids (fst (update random w k))).
Proof.
  rewrite update_eq. cbn [fst boids]. rewrite Forall_map.
  eapply Forall_impl; [|apply staged_ranges].
  intros b [Hs Ha]. rewrite move_spec. unfold Spec.commit_integrate.
  cbn [speed angle newAngle newSpeed]. repeat split; lra.
Qed.

(** X7. After any positive number of calls of [update()], whatever the
    world was before (no condition on the width, the height or the fields
    of the boids), every boid has a speed in [[0.5, 2]] and a heading in
    [[-pi, pi]], and its staging fields hold the heading and the speed it
    has. *)
Theorem updates_commit (random : nat -> R) (n : nat) (w : World) (k : nat) :
  Forall (fun b => 0.5 <= speed b <= 2 /\ - PI <= angle b <= PI /\
                   angle b = newAngle b /\ speed b = newSpeed b)
         (boids (fst (updates random (S n) w k))).
Proof. rewrite updates_last. apply update_commits. Qed.

(** ** The wrap, one step at a time *)

Lemma trunc_between_nonneg (r : R) (z : Z) :
  0 <= r -> IZR z <= r < IZR z + 1 -> JS.trunc r = z.
Proof.
  intros Hr Hz. unfold JS.trunc. destruct (Rle_dec 0 r); [|lra].
  symmetry. apply Int_part_spec. lra.
Qed.

(** A dividend of magnitude below the divisor is its own remainder. *)
Lemma rem_small (a b : R) : 0 < b -> - b < a < b -> a %% b = a.
Proof.
  intros Hb Ha. unfold JS.rem.
  assert (Hinv : 0 < / b) by now apply Rinv_0_lt_compat.
  assert (Hq : -1 < a / b < 1).
  { unfold Rdiv. split.
    - apply Rmult_lt_reg_r with b; [exact Hb|].
      rewrite Rmult_assoc, Rinv_l by lra. lra.
    - apply Rmult_lt_reg_r with b; [exact Hb|].
      rewrite Rmult_assoc, Rinv_l by lra. lra. }
  destruct (Rle_dec 0 (a / b)) as [Hp|Hp].
  - rewrite (trunc_between_nonneg (a / b) 0); lra.
  - rewrite (trunc_between_neg (a / b) 0); lra.
Qed.

(** A dividend between the divisor and its double. *)
Lemma rem_once (a b : R) : 0 < b -> b <= a < 2 * b -> a %% b = a - b.
Proof.
  intros Hb Ha. unfold JS.rem.
  assert (Hq : 1 <= a / b < 2).
  { unfold Rdiv. split.
    - apply Rmult_le_reg_r with b; [exact Hb|].
      rewrite Rmult_assoc, Rinv_l by lra. lra.
    - apply Rmult_lt_reg_r with b; [exact Hb|].
      rewrite Rmult_assoc, Rinv_l by lra. lra. }
  rewrite (trunc_between_nonneg (a / b) 1); lra.
Qed.

(** The wraps move a position by a whole number of widths. *)
Lemma wrap_x_congruent (w xv : R) :
  exists k : Z, Spec.wrap_x w xv = xv + IZR k * w.
Proof.
  unfold Spec.wrap_x, JS.rem.
  destruct (Rle_dec w xv).
  - set (t1 := JS.trunc (xv / w)).
    destruct (Rle_dec (xv - w * IZR t1) 0).
    + set (t2 := JS.trunc ((xv - w * IZR t1) / w)).
      exists (1 - t1 - t2)%Z. rewrite !minus_IZR. ring.
    + exists (- t1)%Z. rewrite opp_IZR. ring.
  - destruct (Rle_dec xv 0).
    + set (t2 := JS.trunc (xv / w)).
      exists (1 - t2)%Z. rewrite minus_IZR. ring.
    + exists 0%Z. ring.
Qed.

(** X8. The x wrap of [update()] moves a boid by a whole number of widths,
    so the boid stays at the same point of the torus; in a world of
    positive width it leaves a position strictly inside the plane
    unchanged, takes one width off a position less than one width beyond
    the right edge, and adds one width to a position at 0 or less than one
    width beyond the left edge. *)
Theorem move_x_wraps (w h : R) (b : Boid) :
  (exists k : Z, x (move w h b) = integrated_x b + IZR k * w) /\
  (0 < w ->
   (0 < integrated_x b < w -> x (move w h b) = integrated_x b) /\
   (w < integrated_x b < 2 * w -> x (move w h b) = integrated_x b - w) /\
   (- w < integrated_x b <= 0 -> x (move w h b) = integrated_x b + w)).
Proof.
  rewrite move_x. fold (integrated_x b). split; [apply wrap_x_congruent|].
  intros Hw. unfold Spec.wrap_x. repeat split; intros Hx.
  - destruct (Rle_dec w (integrated_x b)); [lra|].
    destruct (Rle_dec (integrated_x b) 0); [lra|reflexivity].
  - destruct (Rle_dec w (integrated_x b)); [|lra].
    rewrite rem_once by lra.
    destruct (Rle_dec (integrated_x b - w) 0); [lra|reflexivity].
  - destruct (Rle_dec w (integrated_x b)); [lra|].
    destruct (Rle_dec (integrated_x b) 0); [|lra].
    rewrite rem_small by lra. reflexivity.
Qed.

(** An instance: in a world of width 10, a boid at [x = 9.5] with staged
    heading 0 and staged speed 1 reappears at [x = 0.5]. *)
Lemma move_x_wraps_witness :
  x (move 10 10 (mkBoid 0 9.5 5 0 1 0 1)) = 0.5.
Proof.
  assert (E : integrated_x (mkBoid 0 9.5 5 0 1 0 1) = 10.5).
  { unfold integrated_x. cbn [x newAngle newSpeed]. rewrite cos_0. lra. }
  rewrite (proj1 (proj2 (proj2 (move_x_wraps 10 10 (mkBoid 0 9.5 5 0 1 0 1))
                           ltac:(lra)))).
  - rewrite E. lra.
  - rewrite E. lra.
Defined.

Lemma move_y (w h : R) (b : Boid) :
  y (move w h b) = Spec.wrap_y w h (integrated_y b).
Proof. rewrite move_spec. reflexivity. Qed.

(** X9. The y wrap of [update()] takes its lower correction modulo the
    width; this cannot be seen while steps are short.  For a boid at
    [y >= 0] whose staged speed is non-negative and below both the width
    and the height, the y wrap is the wrap modulo the height: the new [y]
    is in [(0, height]], the lower correction modulo the height would give
    the same, and the boid is moved by a whole number of heights. *)
Theorem move_y_small_step (w h : R) (b : Boid) :
  0 <= y b -> 0 <= newSpeed b -> newSpeed b < w -> newSpeed b < h ->
  0 < y (move w h b) <= h /\
  y (move w h b) = Spec.wrap_y_by_height h (integrated_y b) /\
  exists k : Z, y (move w h b) = integrated_y b + IZR k * h.
Proof.
  intros Hy Hs Hw Hh. rewrite move_y.
  assert (Hlow : - newSpeed b <= integrated_y b).
  { unfold integrated_y. pose proof (SIN_bound (newAngle b)). nra. }
  unfold Spec.wrap_y, Spec.wrap_y_by_height.
  destruct (Rle_dec h (integrated_y b)) as [Hge|Hlt].
  - pose proof (JSFacts.rem_nonneg (integrated_y b) h ltac:(lra) ltac:(lra))
      as Hr.
    destruct (Rle_dec (integrated_y b %% h) 0) as [Hz|Hp].
    + assert (E : integrated_y b %% h = 0) by lra. rewrite E.
      rewrite !rem_small by lra. split; [lra|]. split; [reflexivity|].
      unfold JS.rem in E.
      exists (1 - JS.trunc (integrated_y b / h))%Z. rewrite minus_IZR. lra.
    + split; [lra|]. split; [reflexivity|].
      exists (- JS.trunc (integrated_y b / h))%Z. unfold JS.rem.
      rewrite opp_IZR. ring.
  - destruct (Rle_dec (integrated_y b) 0) as [Hz|Hp].
    + rewrite !rem_small by lra. split; [lra|]. split; [reflexivity|].
      exists 1%Z. ring.
    + split; [lra|]. split; [reflexivity|]. exists 0%Z. ring.
Qed.

(** An instance: width 4, height 10, a boid at [y = 0.5] that moves down
    at speed 1 reappears at [y = 9.5]. *)
Lemma move_y_small_step_witness :
  0 < y (move 4 10 (mkBoid 0 1 0.5 0 1 (- (PI / 2)) 1)) <= 10.
Proof.
  apply (move_y_small_step 4 10 (mkBoid 0 1 0.5 0 1 (- (PI / 2)) 1));
    cbn [y newSpeed]; lra.
Defined.

(** ** The averaging helpers *)

Lemma fold_left_sum {A : Type} (f : A -> R) (l : list A) (a : R) :
  fold_left (fun total b => total + f b) l a = a + Rsum (map f l).
Proof.
  revert a. induction l as [|b l IH]; intros a; simpl; [lra|].
  rewrite IH. lra.
Qed.

Lemma fold_left_sum_pair {A : Type} (f g : A -> R) (l : list A) (a b : R) :
  fold_left (fun '(sa, sb) c => (sa + f c, sb + g c)) l (a, b)
  = (a + Rsum (map f l), b + Rsum (map g l)).
Proof.
  revert a b. induction l as [|c l IH]; intros a b; simpl.
  - f_equal; lra.
  - rewrite IH. f_equal; lra.
Qed.

Lemma averageSpeed_mean (bs : list Boid) :
  averageSpeed bs = Rsum (map speed bs) / INR (length bs).
Proof. unfold averageSpeed. rewrite fold_left_sum. f_equal. lra. Qed.

Lemma averagePosition_mean (bs : list Boid) :
  averagePosition bs
  = (Rsum (map x bs) / INR (length bs), Rsum (map y bs) / INR (length bs)).
Proof.
  unfold averagePosition. rewrite (fold_left_sum_pair x y).
  f_equal; f_equal; lra.
Qed.

Lemma averageAngle_resultant (bs : list Boid) :
  averageAngle bs = JS.atan2 (snd (resultant bs)) (fst (resultant bs)).
Proof.
  unfold averageAngle, resultant.
  rewrite (fold_left_sum_pair (fun b => cos (angle b)) (fun b => sin (angle b))).
  cbn [fst snd]. now rewrite !Rplus_0_l.
Qed.

(** A sum of numbers of an interval. *)
Lemma Rsum_bounds {A : Type} (f : A -> R) (l : list A) (lo hi : R) :
  Forall (fun a => lo <= f a <= hi) l ->
  INR (length l) * lo <= Rsum (map f l) <= INR (length l) * hi.
Proof.
  induction 1 as [|a l Ha _ IH].
  - simpl. lra.
  - cbn [map Rsum fold_right length]. rewrite S_INR.
    fold (Rsum (map f l)). lra.
Qed.

(** The mean of numbers of an interval is in the interval. *)
Lemma mean_bounds {A : Type} (f : A -> R) (l : list A) (lo hi : R) :
  l <> [] ->
  Forall (fun a => lo <= f a <= hi) l ->
  lo <= Rsum (map f l) / INR (length l) <= hi.
Proof.
  intros Hne H. pose proof (Rsum_bounds f l lo hi H) as Hs.
  assert (Hn : 0 < INR (length l)).
  { apply lt_0_INR. destruct l; [contradiction|simpl; lia]. }
  assert (Hinv : 0 < / INR (length l)) by now apply Rinv_0_lt_compat.
  assert (E : forall c, INR (length l) * c * / INR (length l) = c)
    by (intros c; field; lra).
  unfold Rdiv. split.
  - rewrite <- (E lo). apply Rmult_le_compat_r; lra.
  - rewrite <- (E hi). apply Rmult_le_compat_r; lra.
Qed.

(** X11. The averages of a non-empty list of boids lie within the range
    of the averaged values: the average speed between the smallest and
    the largest speed, and each coordinate of the average position between
    the smallest and the largest coordinate (in exact arithmetic). *)
Theorem averages_within (bs : list Boid) (lo hi : R) :
  bs <> [] ->
  (Forall (fun b => lo <= speed b <= hi) bs -> lo <= averageSpeed bs <= hi) /\
  (Forall (fun b => lo <= x b <= hi) bs ->
   lo <= fst (averagePosition bs) <= hi) /\
  (Forall (fun b => lo <= y b <= hi) bs ->
   lo <= snd (averagePosition bs) <= hi).
Proof.
  intros Hne. rewrite averageSpeed_mean, averagePosition_mean. cbn [fst snd].
  split; [|split]; intros H.
  - apply (mean_bounds speed bs lo hi Hne H).
  - apply (mean_bounds x bs lo hi Hne H).
  - apply (mean_bounds y bs lo hi Hne H).
Qed.

Lemma row_speeds :
  Forall (fun b => 0.6 <= speed b <= 1.4) Scenario2.row.
Proof.
  unfold Scenario2.row. repeat constructor; simpl; lra.
Qed.

Lemma averages_within_witness :
  0.6 <= averageSpeed Scenario2.row <= 1.4.
Proof.
  apply (proj1 (averages_within Scenario2.row 0.6 1.4 ltac:(discriminate))).
  exact row_speeds.
Defined.

(** ** The alignment rule *)

(** X13. [averageAngle] is the direction of the sum of the unit vectors
    along the headings: when that sum is not the null vector, the cosine
    and the sine of the average are the coordinates of the sum divided by
    its length; in every case the average is in [[-pi, pi]]. *)
Theorem alignment_unit_vector (bs : list Boid) :
  (fst (resultant bs) <> 0 \/ snd (resultant bs) <> 0 ->
   cos (averageAngle bs) = fst (resultant bs) / norm (resultant bs) /\
   sin (averageAngle bs) = snd (resultant bs) / norm (resultant bs)) /\
  - PI <= averageAngle bs <= PI.
Proof.
  rewrite averageAngle_resultant. split.
  - intros H. destruct (resultant bs) as [sx sy]. cbn [fst snd] in *.
    now apply atan2_direction.
  - pose proof (atan2_range (snd (resultant bs)) (fst (resultant bs))). lra.
Qed.

Lemma alignment_unit_vector_witness :
  cos (averageAngle [Scenario.lonely])
  = fst (resultant [Scenario.lonely]) / norm (resultant [Scenario.lonely]).
Proof.
  apply (proj1 (alignment_unit_vector [Scenario.lonely])).
  left. unfold resultant, Rsum. cbn [map fold_right fst angle Scenario.lonely].
  rewrite cos_0. lra.
Defined.

Lemma Rsum_constant {A : Type} (f : A -> R) (l : list A) (c : R) :
  Forall (fun a => f a = c) l -> Rsum (map f l) = INR (length l) * c.
Proof.
  induction 1 as [|a l Ha _ IH].
  - simpl. lra.
  - cbn [map Rsum fold_right length]. rewrite S_INR.
    fold (Rsum (map f l)). lra.
Qed.

(** X14. When all the boids of a non-empty list have the same heading
    [a], an angle of [(-pi, pi]], their average heading is [a] (in exact
    arithmetic). *)
Theorem averageAngle_common_heading (bs : list Boid) (a : R) :
  bs <> [] -> - PI < a <= PI ->
  Forall (fun b => angle b = a) bs ->
  averageAngle bs = a.
Proof.
  intros Hne Ha H. rewrite averageAngle_resultant. unfold resultant.
  cbn [fst snd].
  assert (Hn : 0 < INR (length bs)).
  { apply lt_0_INR. destruct bs; [contradiction|simpl; lia]. }
  rewrite (Rsum_constant (fun b => cos (angle b)) bs (cos a)),
          (Rsum_constant (fun b => sin (angle b)) bs (sin a)).
  - rewrite atan2_scale by exact Hn. now apply atan2_sin_cos.
  - eapply Forall_impl; [|exact H]. intros b Hb. cbv beta. now rewrite Hb.
  - eapply Forall_impl; [|exact H]. intros b Hb. cbv beta. now rewrite Hb.
Qed.

Lemma averageAngle_common_heading_witness :
  averageAngle Scenario2.row = 0.
Proof.
  pose proof PI_RGT_0.
  apply averageAngle_common_heading; [discriminate|lra|].
  unfold Scenario2.row. repeat constructor.
Defined.

(** ** A boid alone *)

(** X15. In a world of one boid, a tick without noise (the three calls of
    [Math.random()] return 0.5) keeps the heading, when it is in
    [(-pi, pi]], and the speed, when it is in [[0.5, 2]]: the boid moves by
    [(cos(angle) * speed, sin(angle) * speed)] and is wrapped. *)
Theorem lone_boid_flies_straight (random : nat -> R) (w h : R) (boid : Boid)
    (k : nat) :
  zero_noise random k ->
  - PI < angle boid <= PI ->
  0.5 <= speed boid <= 2 ->
  update random (mkWorld w h [boid]) k
  = (mkWorld w h
       [mkBoid (ident boid)
               (Spec.wrap_x w (x boid + cos (angle boid) * speed boid))
               (Spec.wrap_y w h (y boid + sin (angle boid) * speed boid))
               (angle boid) (speed boid) (angle boid) (speed boid)],
     (k + 3)%nat).
Proof.
  intros (H0 & H1 & H2) Ha Hs.
  rewrite update_eq.
  cbn [width height boids length Spec.staged_from_snapshot map].
  rewrite stage_eq.
  rewrite (influences_lonely random _ _ _ (getNeighbors_alone _ 100)).
  unfold Spec.noise. cbn [fst snd]. rewrite H0, H1, H2.
  replace ((0.5 * 2 - 1) * 0.01) with 0 by lra.
  rewrite !Rplus_0_r, atan2_sin_cos by exact Ha.
  rewrite JSFacts.clamp_id by exact Hs.
  rewrite move_spec. unfold Spec.commit_integrate.
  cbn [ident x y angle speed newAngle newSpeed].
  f_equal.
Qed.

Lemma lone_boid_flies_straight_witness :
  update Scenario.constant_draws (mkWorld 10 10 [Scenario.lonely]) 0
  = (mkWorld 10 10
       [mkBoid 0 (Spec.wrap_x 10 (1 + cos 0 * 1))
               (Spec.wrap_y 10 10 (1 + sin 0 * 1)) 0 1 0 1],
     3%nat).
Proof.
  pose proof PI_RGT_0.
  apply (lone_boid_flies_straight Scenario.constant_draws 10 10 Scenario.lonely 0).
  - repeat split.
  - simpl. lra.
  - simpl. lra.
Defined.

(** ** The size of the influences *)

Lemma ratio_bound (a D c : R) :
  0 < D -> - (c * D) <= a <= c * D -> - c <= a / D <= c.
Proof.
  intros HD Ha. assert (Hinv : 0 < / D) by now apply Rinv_0_lt_compat.
  assert (E1 : - (c * D) * / D = - c) by (field; lra).
  assert (E2 : c * D * / D = c) by (field; lra).
  unfold Rdiv. split.
  - rewrite <- E1. apply Rmult_le_compat_r; lra.
  - rewrite <- E2. apply Rmult_le_compat_r; lra.
Qed.

Lemma Rabs_le_inv (a b : R) : Rabs a <= b -> - b <= a <= b.
Proof. unfold Rabs. destruct (Rcase_abs a); lra. Qed.

Lemma separationTerm_small (boid neighbor : Boid) :
  Rabs (fst (separationTerm boid neighbor)) <= 0.05 /\
  Rabs (snd (separationTerm boid neighbor)) <= 0.05.
Proof.
  unfold separationTerm, separationDivisor, distanceSquared. cbn [fst snd].
  set (dx := x boid - x neighbor). set (dy := y boid - y neighbor).
  pose proof (Rle_0_sqr dx) as Hx. pose proof (Rle_0_sqr dy) as Hy.
  pose proof (Rle_0_sqr (dx - 10)) as Hx1.
  pose proof (Rle_0_sqr (dx + 10)) as Hx2.
  pose proof (Rle_0_sqr (dy - 10)) as Hy1.
  pose proof (Rle_0_sqr (dy + 10)) as Hy2.
  unfold Rsqr in *.
  pose proof (ratio_bound dx ((dx * dx + dy * dy) / 100 + 1) 5
                ltac:(lra) ltac:(lra)) as Hqx.
  pose proof (ratio_bound dy ((dx * dx + dy * dy) / 100 + 1) 5
                ltac:(lra) ltac:(lra)) as Hqy.
  split; apply Rabs_le; lra.
Qed.

Lemma separation_sum (boid : Boid) :
  forall neighbors a b,
    separation boid neighbors (a, b)
    = (a + Rsum (map (fun n => fst (separationTerm boid n)) neighbors),
       b + Rsum (map (fun n => snd (separationTerm boid n)) neighbors)).
Proof.
  unfold separation, Rsum.
  induction neighbors as [|n ns IH]; intros a b;
    cbn [fold_left map fold_right].
  - f_equal; lra.
  - destruct (separationTerm boid n) as [tx ty]. rewrite IH.
    cbn [fst snd]. f_equal; lra.
Qed.

Lemma Rsum_abs_bound {A : Type} (f : A -> R) (l : list A) (c : R) :
  Forall (fun a => Rabs (f a) <= c) l ->
  Rabs (Rsum (map f l)) <= c * INR (length l).
Proof.
  induction 1 as [|a l Ha _ IH].
  - simpl. rewrite Rabs_R0. lra.
  - cbn [map Rsum fold_right length]. rewrite S_INR.
    fold (Rsum (map f l)).
    pose proof (Rabs_triang (f a) (Rsum (map f l))). lra.
Qed.

(** X10. The repulsion of the separation rule is bounded: one neighbor
    adds at most 0.05 in magnitude to each of [xInfluence] and
    [yInfluence], the loop over [n] neighbors at most [0.05 n]; and a
    neighbor at the very position of the boid adds nothing, so two boids at
    the same point are not pushed apart by the rule. *)
Theorem separation_bounded (boid : Boid) :
  (forall neighbor,
     Rabs (fst (separationTerm boid neighbor)) <= 0.05 /\
     Rabs (snd (separationTerm boid neighbor)) <= 0.05) /\
  (forall neighbors acc,
     Rabs (fst (separation boid neighbors acc) - fst acc)
     <= 0.05 * INR (length neighbors) /\
     Rabs (snd (separation boid neighbors acc) - snd acc)
     <= 0.05 * INR (length neighbors)) /\
  (forall neighbor,
     x neighbor = x boid -> y neighbor = y boid ->
     separationTerm boid neighbor = (0, 0)).
Proof.
  split; [apply separationTerm_small|split].
  - intros neighbors [a b]. rewrite separation_sum. cbn [fst snd].
    split.
    + replace (a + Rsum (map (fun n => fst (separationTerm boid n)) neighbors) - a)
        with (Rsum (map (fun n => fst (separationTerm boid n)) neighbors))
        by ring.
      apply Rsum_abs_bound. apply Forall_forall. intros n _.
      apply separationTerm_small.
    + replace (b + Rsum (map (fun n => snd (separationTerm boid n)) neighbors) - b)
        with (Rsum (map (fun n => snd (separationTerm boid n)) neighbors))
        by ring.
      apply Rsum_abs_bound. apply Forall_forall. intros n _.
      apply separationTerm_small.
  - intros neighbor Hx Hy. unfold separationTerm. rewrite Hx, Hy.
    cbv zeta. f_equal; unfold Rdiv; ring.
Qed.

Lemma separation_bounded_witness :
  separationTerm Scenario.left_boid (mkBoid 1 0 0 0 1 0 0) = (0, 0).
Proof.
  apply (proj2 (proj2 (separation_bounded Scenario.left_boid)));
    reflexivity.
Defined.

(** The influences on a boid that has neighbors, rule by rule: alignment,
    cohesion, separation, noise. *)
Lemma influences_with_neighbors (random : nat -> R) (all : list Boid)
    (boid : Boid) (k : nat) :
  getNeighbors all boid 100 <> [] ->
  influences random all boid k
  = (cos (averageAngle (getNeighbors all boid 100)) * 0.01
     + (fst (averagePosition (getNeighbors all boid 100)) - x boid) * 0.001
     + Rsum (map (fun n => fst (separationTerm boid n))
                 (getNeighbors all boid 100))
     + fst (fst (Spec.noise random k)),
     sin (averageAngle (getNeighbors all boid 100)) * 0.01
     + (snd (averagePosition (getNeighbors all boid 100)) - y boid) * 0.001
     + Rsum (map (fun n => snd (separationTerm boid n))
                 (getNeighbors all boid 100))
     + snd (fst (Spec.noise random k)),
     (averageSpeed (getNeighbors all boid 100) - speed boid) * 0.1
     + snd (Spec.noise random k)).
Proof.
  intros Hne. unfold influences.
  destruct (getNeighbors all boid 100) as [|n ns] eqn:E; [contradiction|].
  cbn [length Nat.ltb Nat.leb].
  destruct (averagePosition (n :: ns)) as [ax ay].
  rewrite separation_sum. unfold Spec.noise. cbn [fst snd].
  apply f_equal2; [apply f_equal2|]; lra.
Qed.

Lemma getNeighbors_Forall (P : Boid -> Prop) (all : list Boid) (t : Boid)
    (r : R) :
  Forall P all -> Forall P (getNeighbors all t r).
Proof.
  rewrite !Forall_forall. intros H b Hin. apply H.
  unfold getNeighbors in Hin. apply filter_In in Hin. tauto.
Qed.

Lemma neighbor_within (all : list Boid) (t : Boid) (r : R) (b : Boid) :
  In b (getNeighbors all t r) ->
  Rabs (x b - x t) < Rabs r /\ Rabs (y b - y t) < Rabs r.
Proof.
  intros Hin. unfold getNeighbors in Hin. apply filter_In in Hin.
  destruct Hin as [_ Hn]. apply isNeighbor_spec in Hn. destruct Hn as [_ Hd].
  pose proof (Rle_0_sqr (x b - x t)) as Hx.
  pose proof (Rle_0_sqr (y b - y t)) as Hy.
  unfold Rsqr in Hx, Hy. simpl in Hd. split; apply square_lt_abs; lra.
Qed.

(** The speed influence keeps the staged speed in the range of the
    speeds, up to the noise. *)
Lemma stage_speed_hull (random : nat -> R) (all : list Boid) (boid : Boid)
    (k : nat) (lo hi : R) :
  random_ok random -> 0.5 <= lo -> hi <= 2 ->
  Forall (fun b => lo <= speed b <= hi) all ->
  lo <= speed boid <= hi ->
  lo - 0.01 <= newSpeed (fst (stage random all boid k)) <= hi + 0.01.
Proof.
  intros Hr Hlo Hhi Hall Hb.
  rewrite stage_eq. cbn [fst newSpeed].
  destruct (noise_bounded random k Hr) as (_ & _ & Hes).
  apply Rabs_le_inv in Hes.
  assert (Hv : lo - 0.01 <= speed boid + snd (influences random all boid k)
               <= hi + 0.01).
  { destruct (getNeighbors all boid 100) as [|n ns] eqn:E.
    - rewrite (influences_lonely random all boid k E). lra.
    - rewrite influences_with_neighbors by (rewrite E; discriminate).
      cbn [snd]. rewrite E.
      pose proof (getNeighbors_Forall _ all boid 100 Hall) as Hns.
      rewrite E in Hns. rewrite averageSpeed_mean.
      pose proof (mean_bounds speed (n :: ns) lo hi ltac:(discriminate) Hns).
      lra. }
  unfold JS.min, JS.max, Rmin, Rmax.
  destruct (Rle_dec (speed boid + snd (influences random all boid k)) 0.5);
    match goal with |- context [Rle_dec ?a 2] => destruct (Rle_dec a 2) end;
    lra.
Qed.

(** X12. Speed matching keeps the speeds together: when the speeds of all
    the boids are in an interval [[lo, hi]] within [[0.5, 2]], the speed
    that the first loop of [update()] stages for every boid is in
    [[lo - 0.01, hi + 0.01]], the interval widened by the noise (in exact
    arithmetic). *)
Theorem staged_speed_hull (random : nat -> R) (bs : list Boid) (k : nat)
    (lo hi : R) :
  random_ok random -> 0.5 <= lo -> hi <= 2 ->
  Forall (fun b => lo <= speed b <= hi) bs ->
  Forall (fun b => lo - 0.01 <= newSpeed b <= hi + 0.01)
         (fst (phase1 random bs k)).
Proof.
  intros Hr Hlo Hhi Hall. rewrite phase1_snapshot. cbn [fst].
  assert (H : forall rest k',
             Forall (fun b => lo <= speed b <= hi) rest ->
             Forall (fun b => lo - 0.01 <= newSpeed b <= hi + 0.01)
                    (Spec.staged_from_snapshot random bs rest k')).
  { induction rest as [|b rest IH]; intros k' Hrest; simpl; constructor.
    - inversion Hrest; subst. now apply stage_speed_hull.
    - inversion Hrest; subst. now apply IH. }
  now apply H.
Qed.

Lemma staged_speed_hull_witness :
  Forall (fun b => 0.6 - 0.01 <= newSpeed b <= 1.4 + 0.01)
         (fst (phase1 Scenario.constant_draws Scenario2.row 0)).
Proof.
  apply staged_speed_hull; [exact constant_draws_ok|lra|lra|exact row_speeds].
Defined.

(** X16. The steering of one tick is small: on each axis the influence
    added to the unit heading vector of a boid with [n] neighbors is at
    most [0.12 + 0.05 n] in magnitude (0.01 of alignment, 0.1 of cohesion,
    since the neighbors are within 100, 0.05 of separation for each
    neighbor, 0.01 of noise). *)
Theorem influences_bounded (random : nat -> R) (all : list Boid) (boid : Boid)
    (k : nat) :
  random_ok random ->
  Rabs (fst (fst (influences random all boid k)))
  <= 0.12 + 0.05 * INR (length (getNeighbors all boid 100)) /\
  Rabs (snd (fst (influences random all boid k)))
  <= 0.12 + 0.05 * INR (length (getNeighbors all boid 100)).
Proof.
  intros Hr.
  destruct (noise_bounded random k Hr) as (Hex & Hey & _).
  apply Rabs_le_inv in Hex. apply Rabs_le_inv in Hey.
  destruct (getNeighbors all boid 100) as [|n ns] eqn:E.
  - rewrite (influences_lonely random all boid k E). cbn [length INR].
    split; apply Rabs_le; lra.
  - rewrite influences_with_neighbors by (rewrite E; discriminate).
    rewrite E. cbn [fst snd].
    pose proof (COS_bound (averageAngle (n :: ns))) as Hc.
    pose proof (SIN_bound (averageAngle (n :: ns))) as Hs.
    assert (Hnear : Forall (fun b => x boid - 100 <= x b <= x boid + 100 /\
                                    y boid - 100 <= y b <= y boid + 100)
                           (n :: ns)).
    { apply Forall_forall. intros b Hb. rewrite <- E in Hb.
      destruct (neighbor_within all boid 100 b Hb) as [Hx Hy].
      rewrite (Rabs_right 100) in Hx, Hy by lra.
      apply Rabs_def2 in Hx. apply Rabs_def2 in Hy. lra. }
    rewrite averagePosition_mean. cbn [fst snd].
    pose proof (mean_bounds x (n :: ns) (x boid - 100) (x boid + 100)
                  ltac:(discriminate)
                  ltac:(eapply Forall_impl; [|exact Hnear];
                        intros b Hb; apply Hb)) as Hmx.
    pose proof (mean_bounds y (n :: ns) (y boid - 100) (y boid + 100)
                  ltac:(discriminate)
                  ltac:(eapply Forall_impl; [|exact Hnear];
                        intros b Hb; apply Hb)) as Hmy.
    pose proof (Rsum_abs_bound (fun m => fst (separationTerm boid m)) (n :: ns)
                  0.05
                  ltac:(apply Forall_forall; intros m _;
                        apply separationTerm_small)) as Hsx.
    pose proof (Rsum_abs_bound (fun m => snd (separationTerm boid m)) (n :: ns)
                  0.05
                  ltac:(apply Forall_forall; intros m _;
                        apply separationTerm_small)) as Hsy.
    apply Rabs_le_inv in Hsx. apply Rabs_le_inv in Hsy.
    split; apply Rabs_le; lra.
Qed.

Lemma influences_bounded_witness :
  Rabs (fst (fst (influences Scenario.constant_draws Scenario2.row
                    Scenario2.medium 0)))
  <= 0.12 + 0.05 * INR (length (getNeighbors Scenario2.row Scenario2.medium 100)).
Proof.
  apply (influences_bounded Scenario.constant_draws Scenario2.row
           Scenario2.medium 0 constant_draws_ok).
Defined.

(** ** The range of [y] *)

(** X17. In a world of positive width and height, [update()] leaves every
    [y] at most equal to the height, and above 0 or above
    [height - width]; when the world is at least as tall as it is wide,
    [y] is in [(0, height]] after every tick, whatever the speed. *)
Theorem move_y_range (w h : R) (b : Boid) :
  0 < w -> 0 < h ->
  y (move w h b) <= h /\
  (0 < y (move w h b) \/ h - w < y (move w h b)) /\
  (w <= h -> 0 < y (move w h b) <= h).
Proof.
  intros Hw Hh. rewrite move_y. unfold Spec.wrap_y.
  set (y1 := if Rle_dec h (integrated_y b)
             then integrated_y b %% h else integrated_y b).
  assert (Hy1 : y1 < h).
  { unfold y1. destruct (Rle_dec h (integrated_y b)) as [Hge|Hlt]; [|lra].
    apply (JSFacts.rem_nonneg (integrated_y b) h Hh). lra. }
  destruct (Rle_dec y1 0) as [Hz|Hp].
  - pose proof (JSFacts.rem_nonpos y1 w Hw Hz) as Hr.
    split; [lra|]. split; [right; lra|]. intros Hwh. lra.
  - split; [lra|]. split; [left; lra|]. intros Hwh. lra.
Qed.

Lemma move_y_range_witness :
  0 < y (move 4 10 (mkBoid 0 1 (-5) 0 1 0 0)) <= 10.
Proof.
  apply (move_y_range 4 10 (mkBoid 0 1 (-5) 0 1 0 0)); lra.
Defined.

(** ** Locality *)

Lemma isNeighbor_far (boid far : Boid) :
  100 * 100 <= distanceSquared boid far -> isNeighbor boid 100 far = false.
Proof.
  intros H. unfold isNeighbor.
  destruct (Nat.eqb (ident far) (ident boid)); [reflexivity|].
  cbv zeta. rewrite !JSFacts.abs_square. apply JSFacts.ltb_false.
  unfold distanceSquared in H. cbv zeta in H. lra.
Qed.

(** X18. A boid at distance 100 or more, measured in the plane and not
    around the torus, has no influence: with or without it in the
    collection, a boid has the same neighbors and the first loop of
    [update()] stages the same heading and speed for it. *)
Theorem far_boid_ignored (random : nat -> R) (all1 all2 : list Boid)
    (far boid : Boid) (k : nat) :
  100 * 100 <= distanceSquared boid far ->
  getNeighbors (all1 ++ far :: all2) boid 100
  = getNeighbors (all1 ++ all2) boid 100 /\
  stage random (all1 ++ far :: all2) boid k
  = stage random (all1 ++ all2) boid k.
Proof.
  intros H.
  assert (E : getNeighbors (all1 ++ far :: all2) boid 100
              = getNeighbors (all1 ++ all2) boid 100).
  { unfold getNeighbors. rewrite !filter_app. cbn [filter].
    now rewrite (isNeighbor_far boid far H). }
  split; [exact E|].
  unfold stage, influences. now rewrite E.
Qed.

(** An instance: in a world of width 300, the boids at [x = 0] and
    [x = 200] do not see each other. *)
Lemma far_boid_ignored_witness :
  getNeighbors ([] ++ mkBoid 5 200 0 0 1 0 0 :: [Scenario.left_boid])
               Scenario.left_boid 100
  = getNeighbors ([] ++ [Scenario.left_boid]) Scenario.left_boid 100.
Proof.
  apply (far_boid_ignored Scenario.constant_draws [] [Scenario.left_boid]
           (mkBoid 5 200 0 0 1 0 0) Scenario.left_boid 0).
  unfold distanceSquared. simpl. lra.
Defined.

(** ** Speed matching between two boids *)

Lemma stage_speed_pair (random : nat -> R) (all : list Boid) (a b : Boid)
    (k : nat) :
  getNeighbors all a 100 = [b] -> zero_noise random k ->
  0.5 <= speed a <= 2 -> 0.5 <= speed b <= 2 ->
  newSpeed (fst (stage random all a k)) = 0.9 * speed a + 0.1 * speed b.
Proof.
  intros Hn (H0 & H1 & H2) Ha Hb.
  rewrite stage_eq. cbn [fst newSpeed].
  rewrite influences_with_neighbors by (rewrite Hn; discriminate).
  rewrite Hn, averageSpeed_mean. unfold Spec.noise. cbn [fst snd].
  rewrite H2. unfold Rsum. cbn [map fold_right length INR].
  rewrite JSFacts.clamp_id; lra.
Qed.

(** X19. Speed matching between two boids that are each other's only
    neighbors, in a tick without noise and with both speeds in
    [[0.5, 2]]: each staged speed is nine tenths of the boid's speed plus
    one tenth of the other's, so the difference of the speeds is
    multiplied by 0.8 and their sum is kept (in exact arithmetic). *)
Theorem speed_matching_contracts (random : nat -> R) (all : list Boid)
    (a b : Boid) (ka kb : nat) :
  getNeighbors all a 100 = [b] -> getNeighbors all b 100 = [a] ->
  zero_noise random ka -> zero_noise random kb ->
  0.5 <= speed a <= 2 -> 0.5 <= speed b <= 2 ->
  let sa := newSpeed (fst (stage random all a ka)) in
  let sb := newSpeed (fst (stage random all b kb)) in
  sa = 0.9 * speed a + 0.1 * speed b /\
  sb = 0.9 * speed b + 0.1 * speed a /\
  sa - sb = 0.8 * (speed a - speed b) /\
  sa + sb = speed a + speed b.
Proof.
  intros Hna Hnb Hka Hkb Ha Hb sa sb.
  assert (Ea : sa = 0.9 * speed a + 0.1 * speed b)
    by now apply stage_speed_pair.
  assert (Eb : sb = 0.9 * speed b + 0.1 * speed a)
    by now apply stage_speed_pair.
  repeat split; lra.
Qed.

Lemma speed_matching_contracts_witness :
  newSpeed (fst (stage Scenario.constant_draws
                   [Scenario.left_boid; Scenario.right_boid]
                   Scenario.left_boid 0))
  + newSpeed (fst (stage Scenario.constant_draws
                     [Scenario.left_boid; Scenario.right_boid]
                     Scenario.right_boid 3))
  = speed Scenario.left_boid + speed Scenario.right_boid.
Proof.
  apply (speed_matching_contracts Scenario.constant_draws
           [Scenario.left_boid; Scenario.right_boid]
           Scenario.left_boid Scenario.right_boid 0 3
           (proj1 pair_neighbors) (proj2 pair_neighbors)).
  - repeat split.
  - repeat split.
  - simpl. lra.
  - simpl. lra.
Defined.
